(** * midisync: extraction of note groups from a MIDI message stream and
      construction of the video timeline.

    The development embeds the two programs of the repository,
    [midisync.py] (the source clip is bounced when it is too short) and
    [midisync_nogui.py] (the source clip is looped when it is too short).

    Modelling conventions.
    - Times are Python floats in the source.  They are modelled by exact
      rationals ([Q]); rounding is not modelled.  Statements about equal
      durations use [==] on [Q].
    - [mido] and [moviepy] are external libraries.  A decoded MIDI file is
      the list of its messages in playback order, each carrying its delta
      time in seconds.  A moviepy clip is a term of type [Clip] recording
      the calls that built it; [clip_duration] gives the duration moviepy
      assigns to it.
    - What the two inputs decode to, the standard output and the videos
      handed to the encoder are an explicit [World] threaded through the
      two top-level functions.  Writing a video is modelled up to the
      frame rate: the encoder is taken to accept every video at a
      positive frame rate. *)

From Stdlib Require Import ZArith QArith Qround Lqa List String Bool Sorted Permutation.
From stdpp Require Import gmap strings.
Import ListNotations.

Local Open Scope Q_scope.

Set Warnings "-register-all".

(** ** Python primitives on floats *)

Module Py.

(** [x > y] *)
Definition gt (x y : Q) : bool := if Qlt_le_dec y x then true else false.

(** [x < y] *)
Definition lt (x y : Q) : bool := if Qlt_le_dec x y then true else false.

(** [min(a, b)]: the first argument unless the second is strictly smaller. *)
Definition min (a b : Q) : Q := if lt b a then b else a.

End Py.

(** ** Data *)

(** The message types the program distinguishes; every other mido message
    type (control changes, meta messages, ...) is [other_type]. *)
Inductive MsgType := note_on | note_off | other_type.

(** A mido message as the program reads it: [msg.type], [msg.note],
    [msg.velocity], [msg.time].  The note and velocity of a message of
    [other_type] are never read. *)
Record Msg := mkMsg {
  msg_type : MsgType;
  msg_note : Z;
  msg_velocity : Z;
  msg_time : Q
}.

(** [{'pitch': .., 'start': .., 'end': ..}] *)
Record NoteEvent := mkNote {
  pitch : Z;
  ne_start : Q;
  ne_end : Q
}.

(** [{'noteNum': .., 'start': .., 'end': ..}] *)
Record GroupedEvent := mkGroup {
  noteNum : Z;
  ge_start : Q;
  ge_end : Q
}.

Definition is_note_on (msg : Msg) : bool :=
  match msg_type msg with note_on => true | _ => false end.

Definition is_note_off (msg : Msg) : bool :=
  match msg_type msg with note_off => true | _ => false end.

(** Local variables of the message loop of [extractNotes]. *)
Record ExtractState := mkExtract {
  noteEvents : list NoteEvent;
  currentTime : Q;
  activeNotes : gmap Z Q
}.

Definition extract_init : ExtractState :=
  {| noteEvents := []; currentTime := 0; activeNotes := ∅ |}.

(** Local variables of the grouping loop of [extractNotes]. *)
Record SweepState := mkSweep {
  sw_noteNum : Z;
  lastStartTime : option Q;
  groupedEvents : list GroupedEvent
}.

Definition sweep_init : SweepState :=
  {| sw_noteNum := 0; lastStartTime := None; groupedEvents := [] |}.

(** ** [noteEvents.sort(key=lambda x : x['start'])]

    Python's [list.sort] is stable; it is modelled by the stable insertion
    sort that places each event after the events already placed whose key
    is not greater. *)

Fixpoint insert_by_start (e : NoteEvent) (l : list NoteEvent) : list NoteEvent :=
  match l with
  | [] => [e]
  | x :: l' =>
      if Py.lt (ne_start e) (ne_start x) then e :: x :: l'
      else x :: insert_by_start e l'
  end.

Definition sort_by_start (l : list NoteEvent) : list NoteEvent :=
  fold_left (fun acc e => insert_by_start e acc) l [].

(** ** Results, exceptions and the world *)

Inductive Exn := IOError | ZeroDivisionError | ValueError.

(** The outcome of a computation: a value, a raised exception, or a loop
    that has not finished within the given number of iterations. *)
Inductive Res (A : Type) : Type :=
| Ok (a : A)
| Raise (e : Exn)
| OutOfFuel.

Arguments Ok {A} a.
Arguments Raise {A} e.
Arguments OutOfFuel {A}.

Definition bind {A B : Type} (c : Res A) (k : A -> Res B) : Res B :=
  match c with
  | Ok a => k a
  | Raise e => Raise e
  | OutOfFuel => OutOfFuel
  end.

Declare Scope res_scope.
Delimit Scope res_scope with res.
Notation "'let*' x ':=' c 'in' k" := (bind c (fun x => k))
  (at level 10, x name, c at level 100, k at level 200) : res_scope.

Fixpoint foldM {A B : Type} (f : A -> B -> Res A) (l : list B) (a : A) : Res A :=
  match l with
  | [] => Ok a
  | b :: l' => bind (f a b) (foldM f l')
  end.

(** A line written by [print]; numbers formatted into the line are kept
    as numbers. *)
Inductive Line :=
| Blank
| Text (s : string)
| PathLine (label filePath : string)
| ExtractedLine (n : nat)
| GroupedLine (n : Z)
| RowLine (n : Z) (startTime endTime : Q)
| SegmentsLine (n : nat).

(** What [VideoFileClip(path)] gives the program: [sourceClip.duration],
    [sourceClip.w], [sourceClip.h]. *)
Record SourceClip := mkSource {
  src_duration : Q;
  src_w : Z;
  src_h : Z
}.

(** ** moviepy clips *)

Inductive Clip :=
| Source                                            (* sourceClip *)
| ColorClip (size : Z * Z) (color : Z * Z * Z) (duration : Q)
| Subclip (c : Clip) (t_end : Q)                    (* c.subclip(0, t_end) *)
| Reversed (c : Clip) (clipDuration : Q)            (* fl_time(t -> clipDuration - t - 1/fps), then set_duration(clipDuration) *)
| Concatenate (clips : list Clip)                   (* concatenate_videoclips(clips) *)
| FlipLR (c : Clip).                                (* fl_image(np.fliplr) *)

Definition Qsum (l : list Q) : Q := fold_right Qplus 0 l.

(** The [duration] attribute moviepy gives a clip.  [subclip(0, t_end)]
    with a negative [t_end] counts from the end of the clip. *)
Fixpoint clip_duration (sourceClip : SourceClip) (c : Clip) : Q :=
  match c with
  | Source => src_duration sourceClip
  | ColorClip _ _ duration => duration
  | Subclip c' t_end =>
      if Py.lt t_end 0 then clip_duration sourceClip c' + t_end else t_end
  | Reversed _ clipDuration => clipDuration
  | Concatenate clips => Qsum (map (clip_duration sourceClip) clips)
  | FlipLR c' => clip_duration sourceClip c'
  end.

Definition total_duration (sourceClip : SourceClip) (clips : list Clip) : Q :=
  Qsum (map (clip_duration sourceClip) clips).

(** [c.subclip(0, t_end)]; moviepy raises [ValueError] when the start, 0,
    lies beyond the duration of [c]. *)
Definition subclip (sourceClip : SourceClip) (c : Clip) (t_end : Q) : Res Clip :=
  if Py.gt 0 (clip_duration sourceClip c) then Raise ValueError
  else Ok (Subclip c t_end).

(** [concatenate_videoclips(clips)]; moviepy raises [ValueError] on an
    empty list (the maximum of the sizes of no clips). *)
Definition concatenate_videoclips (clips : list Clip) : Res Clip :=
  match clips with
  | [] => Raise ValueError
  | _ => Ok (Concatenate clips)
  end.

(** A filler is a colour clip; every other clip shows the source. *)
Definition is_filler (c : Clip) : bool :=
  match c with ColorClip _ _ _ => true | _ => false end.

Definition is_content (c : Clip) : bool := negb (is_filler c).

Definition is_flipped (c : Clip) : bool :=
  match c with FlipLR _ => true | _ => false end.

(** ** The world: decoded input files, standard output, written videos

    [midi_files] and [video_files] give what the decoders return for a
    path when a run reads it; [stdout] holds the lines of the program's
    own [print] calls; [written] records, in order, the videos handed
    to the encoder with their path and frame rate.  A run reads its two
    inputs before it writes, and writes last.  The two stores of inputs
    are what is read, not a file system: they are not updated by a
    write, so nothing here says what a path holds after a video has
    been written to it, the output path being possibly one of the
    input paths. *)

Record World := mkWorld {
  midi_files : gmap string (list Msg);
  video_files : gmap string SourceClip;
  stdout : list Line;
  written : list (string * Clip * Z)
}.

Definition IO (A : Type) : Type := World -> Res A * World.

Definition ret {A : Type} (a : A) : IO A := fun w => (Ok a, w).

Definition bindIO {A B : Type} (c : IO A) (k : A -> IO B) : IO B :=
  fun w =>
    match c w with
    | (Ok a, w') => k a w'
    | (Raise e, w') => (Raise e, w')
    | (OutOfFuel, w') => (OutOfFuel, w')
    end.

Declare Scope io_scope.
Delimit Scope io_scope with io.
Notation "'let!' x ':=' c 'in' k" := (bindIO c (fun x => k))
  (at level 10, x name, c at level 100, k at level 200) : io_scope.
Notation "c '>>' k" := (bindIO c (fun _ => k))
  (at level 100, k at level 200, right associativity) : io_scope.

Definition lift {A : Type} (r : Res A) : IO A := fun w => (r, w).

Definition print (l : Line) : IO unit :=
  fun w => (Ok tt, {| midi_files := midi_files w; video_files := video_files w;
                      stdout := stdout w ++ [l]; written := written w |}).

Fixpoint print_all (ls : list Line) : IO unit :=
  match ls with
  | [] => ret tt
  | l :: ls' => bindIO (print l) (fun _ => print_all ls')
  end.

(** [mido.MidiFile(filePath)], iterated. *)
Definition MidiFile (filePath : string) : IO (list Msg) :=
  fun w => match midi_files w !! filePath with
           | Some mid => (Ok mid, w)
           | None => (Raise IOError, w)
           end.

(** [VideoFileClip(videoClipPath)] *)
Definition VideoFileClip (videoClipPath : string) : IO SourceClip :=
  fun w => match video_files w !! videoClipPath with
           | Some c => (Ok c, w)
           | None => (Raise IOError, w)
           end.

(** [finalVideo.write_videofile(outputPath, fps=fps, ...)].  moviepy
    steps through the frames in steps of [1.0 / fps]: a frame rate of 0
    raises [ZeroDivisionError] before anything is encoded, and with a
    negative frame rate there is no frame to encode and no video
    results. *)
Definition write_videofile (finalVideo : Clip) (outputPath : string) (fps : Z) : IO unit :=
  fun w =>
    if (fps =? 0)%Z then (Raise ZeroDivisionError, w)
    else if (fps <? 0)%Z then (Ok tt, w)
    else (Ok tt, {| midi_files := midi_files w; video_files := video_files w;
                    stdout := stdout w;
                    written := written w ++ [(outputPath, finalVideo, fps)] |}).

Definition rows (groups : list GroupedEvent) : list Line :=
  map (fun event => RowLine (noteNum event) (ge_start event) (ge_end event)) groups.

(** The optional arguments of [midisync_nogui.py] after the three paths. *)
Inductive ExtraArgs :=
| NoExtra
| Fps (fps : Z)
| FpsThreshold (fps : Z) (chord_threshold : Q).

(** How a script ends: it runs to its last line, or leaves through
    [sys.exit(code)]. *)
Inductive ExitStatus :=
| Finished
| Exit (code : Z).

(** * midisync.py *)

Module Midisync.

(** One iteration of [for msg in mid] (lines 43-58). *)
Definition on_msg (st : ExtractState) (msg : Msg) : ExtractState :=
  let currentTime' := currentTime st + msg_time msg in
  if is_note_on msg && (0 <? msg_velocity msg)%Z then
    {| noteEvents := noteEvents st;
       currentTime := currentTime';
       activeNotes := <[msg_note msg := currentTime']> (activeNotes st) |}
  else if is_note_off msg || (is_note_on msg && (msg_velocity msg =? 0)%Z) then
    match activeNotes st !! msg_note msg with
    | Some startTime =>
        {| noteEvents := noteEvents st ++
                           [ {| pitch := msg_note msg;
                                ne_start := startTime;
                                ne_end := currentTime' |} ];
           currentTime := currentTime';
           activeNotes := delete (msg_note msg) (activeNotes st) |}
    | None =>
        {| noteEvents := noteEvents st;
           currentTime := currentTime';
           activeNotes := activeNotes st |}
    end
  else
    {| noteEvents := noteEvents st;
       currentTime := currentTime';
       activeNotes := activeNotes st |}.

Definition process_messages (mid : list Msg) (st : ExtractState) : ExtractState :=
  fold_left on_msg mid st.

(** [lastStartTime is None or (event['start'] - lastStartTime) > chordThreshold] *)
Definition starts_group (chordThreshold : Q) (last : option Q) (event : NoteEvent) : bool :=
  match last with
  | None => true
  | Some lastStart => Py.gt (ne_start event - lastStart) chordThreshold
  end.

(** One iteration of [for event in noteEvents] (lines 68-76). *)
Definition on_note (chordThreshold : Q) (st : SweepState) (event : NoteEvent) : SweepState :=
  if starts_group chordThreshold (lastStartTime st) event then
    let noteNum' := (sw_noteNum st + 1)%Z in
    {| sw_noteNum := noteNum';
       lastStartTime := Some (ne_start event);
       groupedEvents := groupedEvents st ++
                          [ {| noteNum := noteNum';
                               ge_start := ne_start event;
                               ge_end := ne_end event |} ] |}
  else st.

Definition sweep (chordThreshold : Q) (events : list NoteEvent) (st : SweepState) : SweepState :=
  fold_left (on_note chordThreshold) events st.

(** The grouped events of a list of note events, from the initial state. *)
Definition group_notes (chordThreshold : Q) (events : list NoteEvent) : list GroupedEvent :=
  groupedEvents (sweep chordThreshold events sweep_init).

(** The value [extractNotes] returns, as a function of the decoded file. *)
Definition extract (mid : list Msg) (chordThreshold : Q) : list GroupedEvent :=
  group_notes chordThreshold
    (sort_by_start (noteEvents (process_messages mid extract_init))).

Definition extractNotes (filePath : string) (chordThreshold : Q) : IO (list GroupedEvent) :=
  (let! mid := MidiFile filePath in
   let st := process_messages mid extract_init in
   let noteEvents := sort_by_start (noteEvents st) in
   let sw := sweep chordThreshold noteEvents sweep_init in
   print Blank >>
   print (PathLine "MIDI file path: " filePath) >>
   print (ExtractedLine (length noteEvents)) >>
   print (GroupedLine (sw_noteNum sw)) >>
   print Blank >>
   print (Text "Note #, Start, End") >>
   print_all (rows (groupedEvents sw)) >>
   ret (groupedEvents sw))%io.

(** The [while remainingDuration > 0] loop (lines 141-154); [fuel]
    bounds the number of iterations. *)
Fixpoint bounce_loop (fuel : nat) (sourceClip : SourceClip) (clips : list Clip)
    (remainingDuration : Q) (forward : bool) : Res (list Clip) :=
  if Py.gt remainingDuration 0 then
    match fuel with
    | O => OutOfFuel
    | S fuel' =>
        let clipDuration := Py.min remainingDuration (src_duration sourceClip) in
        (let* sub := subclip sourceClip Source clipDuration in
         let clipToAdd := if forward then sub else Reversed sub clipDuration in
         bounce_loop fuel' sourceClip (clips ++ [clipToAdd])
           (remainingDuration - clipDuration) (negb forward))%res
    end
  else Ok clips.

(** The clip for one note (lines 135-158). *)
Definition note_clip (fuel : nat) (sourceClip : SourceClip) (duration : Q) : Res Clip :=
  if Py.lt (src_duration sourceClip) duration then
    (let* clips := bounce_loop fuel sourceClip [] duration true in
     concatenate_videoclips clips)%res
  else subclip sourceClip Source duration.

(** One iteration of [for event in noteEvents] (lines 114-165); the
    state is [(videoClips, currentPos)]. *)
Definition on_event (fuel : nat) (sourceClip : SourceClip)
    (st : list Clip * Q) (event : GroupedEvent) : Res (list Clip * Q) :=
  let '(videoClips, currentPos) := st in
  let startTime := ge_start event in
  let endTime := ge_end event in
  let duration := endTime - startTime in
  let videoClips :=
    if Py.gt startTime currentPos then
      videoClips ++ [ColorClip (src_w sourceClip, src_h sourceClip)
                               (0, 255, 0)%Z (startTime - currentPos)]
    else videoClips in
  (let* noteClip := note_clip fuel sourceClip duration in
   let noteClip := if (noteNum event mod 2 =? 0)%Z then FlipLR noteClip else noteClip in
   Ok (videoClips ++ [noteClip], endTime))%res.

(** The timeline: [videoClips] after the loop over the grouped events. *)
Definition build_timeline (fuel : nat) (sourceClip : SourceClip)
    (noteEvents : list GroupedEvent) : Res (list Clip) :=
  (let* st := foldM (on_event fuel sourceClip) noteEvents ([], 0) in Ok (fst st))%res.

Definition createVideo (fuel : nat) (midiPath videoClipPath outputPath : string) : IO unit :=
  (let! noteEvents := extractNotes midiPath (1 # 10) in
   match noteEvents with
   | [] => print (Text "No notes found :(")
   | _ =>
       let! sourceClip := VideoFileClip videoClipPath in
       let! videoClips := lift (build_timeline fuel sourceClip noteEvents) in
       print (SegmentsLine (length videoClips)) >>
       let! finalVideo := lift (concatenate_videoclips videoClips) in
       print Blank >>
       write_videofile finalVideo outputPath 30 >>
       print Blank
   end)%io.

(** The lines printed when the arguments are not as expected (lines
    193-197); ["\nExample:"] starts with a line feed. *)
Definition usage : list Line :=
  [ Blank;
    Text "Usage: python3 midisync.py <midi_file> <video_clip> <output_video>";
    Text (String (Ascii.ascii_of_nat 10) "Example:");
    Text "  python3 midisync.py input.mid video.mp4 output.mp4";
    Blank ].

(** The script (lines 185-200): [argv] is [sys.argv], the name of the
    script included. *)
Definition main (fuel : nat) (argv : list string) : IO ExitStatus :=
  match argv with
  | [_; midi_file; video_clip; output_video] =>
      (createVideo fuel midi_file video_clip output_video >> ret Finished)%io
  | _ => (print_all usage >> ret (Exit 1))%io
  end.

End Midisync.

(** * midisync_nogui.py *)

Module MidisyncNoGui.

(** One iteration of [for msg in mid] (lines 43-58). *)
Definition on_msg (st : ExtractState) (msg : Msg) : ExtractState :=
  let currentTime' := currentTime st + msg_time msg in
  if is_note_on msg && (0 <? msg_velocity msg)%Z then
    {| noteEvents := noteEvents st;
       currentTime := currentTime';
       activeNotes := <[msg_note msg := currentTime']> (activeNotes st) |}
  else if is_note_off msg || (is_note_on msg && (msg_velocity msg =? 0)%Z) then
    match activeNotes st !! msg_note msg with
    | Some startTime =>
        {| noteEvents := noteEvents st ++
                           [ {| pitch := msg_note msg;
                                ne_start := startTime;
                                ne_end := currentTime' |} ];
           currentTime := currentTime';
           activeNotes := delete (msg_note msg) (activeNotes st) |}
    | None =>
        {| noteEvents := noteEvents st;
           currentTime := currentTime';
           activeNotes := activeNotes st |}
    end
  else
    {| noteEvents := noteEvents st;
       currentTime := currentTime';
       activeNotes := activeNotes st |}.

Definition process_messages (mid : list Msg) (st : ExtractState) : ExtractState :=
  fold_left on_msg mid st.

(** [lastStartTime is None or (event['start'] - lastStartTime) > chordThreshold] *)
Definition starts_group (chordThreshold : Q) (last : option Q) (event : NoteEvent) : bool :=
  match last with
  | None => true
  | Some lastStart => Py.gt (ne_start event - lastStart) chordThreshold
  end.

(** One iteration of [for event in noteEvents] (lines 68-76). *)
Definition on_note (chordThreshold : Q) (st : SweepState) (event : NoteEvent) : SweepState :=
  if starts_group chordThreshold (lastStartTime st) event then
    let noteNum' := (sw_noteNum st + 1)%Z in
    {| sw_noteNum := noteNum';
       lastStartTime := Some (ne_start event);
       groupedEvents := groupedEvents st ++
                          [ {| noteNum := noteNum';
                               ge_start := ne_start event;
                               ge_end := ne_end event |} ] |}
  else st.

Definition sweep (chordThreshold : Q) (events : list NoteEvent) (st : SweepState) : SweepState :=
  fold_left (on_note chordThreshold) events st.

Definition group_notes (chordThreshold : Q) (events : list NoteEvent) : list GroupedEvent :=
  groupedEvents (sweep chordThreshold events sweep_init).

(** The value [extractNotes] returns, as a function of the decoded file. *)
Definition extract (mid : list Msg) (chordThreshold : Q) : list GroupedEvent :=
  group_notes chordThreshold
    (sort_by_start (noteEvents (process_messages mid extract_init))).

Definition extractNotes (filePath : string) (chordThreshold : Q) : IO (list GroupedEvent) :=
  (let! mid := MidiFile filePath in
   let st := process_messages mid extract_init in
   let noteEvents := sort_by_start (noteEvents st) in
   let sw := sweep chordThreshold noteEvents sweep_init in
   print Blank >>
   print (PathLine "MIDI file path : " filePath) >>
   print (ExtractedLine (length noteEvents)) >>
   print (GroupedLine (sw_noteNum sw)) >>
   print Blank >>
   print (Text "Note #, Start, End") >>
   print_all (rows (groupedEvents sw)) >>
   ret (groupedEvents sw))%io.

(** [int(np.ceil(duration / sourceClip.duration))]; the division of two
    Python floats raises [ZeroDivisionError] on a zero divisor. *)
Definition numLoops (sourceClip : SourceClip) (duration : Q) : Res Z :=
  if Qeq_bool (src_duration sourceClip) 0 then Raise ZeroDivisionError
  else Ok (Qceiling (duration / src_duration sourceClip)).

(** The clip for one note (lines 137-142). *)
Definition note_clip (sourceClip : SourceClip) (duration : Q) : Res Clip :=
  if Py.lt (src_duration sourceClip) duration then
    (let* n := numLoops sourceClip duration in
     let* loopedClip := concatenate_videoclips (repeat Source (Z.to_nat n)) in
     subclip sourceClip loopedClip duration)%res
  else subclip sourceClip Source duration.

(** One iteration of [for event in noteEvents] (lines 116-149); the
    state is [(videoClips, currentPos)]. *)
Definition on_event (sourceClip : SourceClip)
    (st : list Clip * Q) (event : GroupedEvent) : Res (list Clip * Q) :=
  let '(videoClips, currentPos) := st in
  let startTime := ge_start event in
  let endTime := ge_end event in
  let duration := endTime - startTime in
  let videoClips :=
    if Py.gt startTime currentPos then
      videoClips ++ [ColorClip (src_w sourceClip, src_h sourceClip)
                               (0, 255, 0)%Z (startTime - currentPos)]
    else videoClips in
  (let* noteClip := note_clip sourceClip duration in
   let noteClip := if (noteNum event mod 2 =? 0)%Z then FlipLR noteClip else noteClip in
   Ok (videoClips ++ [noteClip], endTime))%res.

(** The timeline: [videoClips] after the loop over the grouped events. *)
Definition build_timeline (sourceClip : SourceClip)
    (noteEvents : list GroupedEvent) : Res (list Clip) :=
  (let* st := foldM (on_event sourceClip) noteEvents ([], 0) in Ok (fst st))%res.

Definition createVideo (midiPath videoClipPath outputPath : string)
    (chordThreshold : Q) (fps : Z) : IO unit :=
  (let! noteEvents := extractNotes midiPath chordThreshold in
   match noteEvents with
   | [] => print (Text "No notes found :(")
   | _ =>
       let! sourceClip := VideoFileClip videoClipPath in
       let! videoClips := lift (build_timeline sourceClip noteEvents) in
       print (SegmentsLine (length videoClips)) >>
       let! finalVideo := lift (concatenate_videoclips videoClips) in
       print Blank >>
       write_videofile finalVideo outputPath fps >>
       print Blank >>
       print (Text "Make sure when you make the visuals:") >>
       print (Text "- Crop the video to the proper size") >>
       print (Text "- Key out the greenscreen") >>
       print Blank
   end)%io.

(** The call made by the script when at least three arguments are
    given (lines 176-191): a fourth argument is the frame rate, a fifth
    the chord threshold, both already converted by [int] and [float];
    they default to 30 and 0.1. *)
Definition main (midi_file video_clip output_video : string) (more : ExtraArgs) : IO unit :=
  let fps := match more with
             | NoExtra => 30%Z
             | Fps v | FpsThreshold v _ => v
             end in
  let chord_threshold := match more with
                         | NoExtra | Fps _ => 1 # 10
                         | FpsThreshold _ v => v
                         end in
  createVideo midi_file video_clip output_video chord_threshold fps.

End MidisyncNoGui.

(** * Vocabulary of the statements *)

(** Closes a comparison of rationals between closed terms. *)
Ltac decide_Q := vm_compute; solve [ reflexivity | discriminate ].

(** ** Extraction *)

(** The world [w] with [out] as its standard output. *)
Definition with_stdout (w : World) (out : list Line) : World :=
  {| midi_files := midi_files w; video_files := video_files w;
     stdout := out; written := written w |}.

(** The lines [extractNotes] prints, given the label of the path line. *)
Definition extraction_log (label filePath : string) (sorted : list NoteEvent)
    (sw : SweepState) : list Line :=
  [ Blank; PathLine label filePath; ExtractedLine (length sorted);
    GroupedLine (sw_noteNum sw); Blank; Text "Note #, Start, End" ]
  ++ rows (groupedEvents sw).

(** [noteEvents] after the sort, and the state of the grouping loop at
    its end, for a decoded file. *)
Definition sorted_notes (mid : list Msg) : list NoteEvent :=
  sort_by_start (noteEvents (Midisync.process_messages mid extract_init)).

Definition final_sweep (mid : list Msg) (chordThreshold : Q) : SweepState :=
  Midisync.sweep chordThreshold (sorted_notes mid) sweep_init.

(** A note begin: [msg.type == 'note_on' and msg.velocity > 0]. *)
Definition is_begin (msg : Msg) : bool :=
  is_note_on msg && (0 <? msg_velocity msg)%Z.

(** A note end:
    [msg.type == 'note_off' or (msg.type == 'note_on' and msg.velocity == 0)]. *)
Definition is_end (msg : Msg) : bool :=
  is_note_off msg || (is_note_on msg && (msg_velocity msg =? 0)%Z).

(** The message with the same delta time that is neither a begin nor an end. *)
Definition silence (msg : Msg) : Msg :=
  {| msg_type := other_type; msg_note := msg_note msg;
     msg_velocity := msg_velocity msg; msg_time := msg_time msg |}.

(** The state after a message that only advances the clock. *)
Definition tick (st : ExtractState) (msg : Msg) : ExtractState :=
  {| noteEvents := noteEvents st;
     currentTime := currentTime st + msg_time msg;
     activeNotes := activeNotes st |}.

(** [msg] is a note end for pitch [p]. *)
Definition ends_pitch (p : Z) (msg : Msg) : bool :=
  is_end msg && (msg_note msg =? p)%Z.

(** Two states that differ at most in the recorded start of pitch [p]. *)
Definition agree_off (p : Z) (s1 s2 : ExtractState) : Prop :=
  noteEvents s1 = noteEvents s2 /\
  currentTime s1 = currentTime s2 /\
  delete p (activeNotes s1) = delete p (activeNotes s2).

(** The order [list.sort] establishes. *)
Definition by_start (a b : NoteEvent) : Prop := ne_start a <= ne_start b.

(** ** The loop body of the builder

    The bodies of [for event in noteEvents] in the two programs differ
    only in how the clip of a note is made; [on_event_with] has that fit
    policy as a parameter. *)

(** The green clip before a group that starts after the cursor. *)
Definition gap (sourceClip : SourceClip) (currentPos : Q) (event : GroupedEvent) : list Clip :=
  if Py.gt (ge_start event) currentPos then
    [ColorClip (src_w sourceClip, src_h sourceClip) (0, 255, 0)%Z
               (ge_start event - currentPos)]
  else [].

(** [if noteNum % 2 == 0: noteClip = noteClip.fx(... np.fliplr ...)] *)
Definition flip_if_even (event : GroupedEvent) (c : Clip) : Clip :=
  if (noteNum event mod 2 =? 0)%Z then FlipLR c else c.

(** [duration = endTime - startTime] *)
Definition content_duration (event : GroupedEvent) : Q := ge_end event - ge_start event.

Definition on_event_with (sourceClip : SourceClip) (note_clip : Q -> Res Clip)
    (st : list Clip * Q) (event : GroupedEvent) : Res (list Clip * Q) :=
  bind (note_clip (content_duration event))
       (fun c => Ok (fst st ++ gap sourceClip (snd st) event ++ [flip_if_even event c],
                     ge_end event)).

(** The clips emitted for [groups] from cursor [currentPos], given the
    clip made for each note. *)
Fixpoint timeline (sourceClip : SourceClip) (currentPos : Q)
    (groups : list GroupedEvent) (cs : list Clip) : list Clip :=
  match groups, cs with
  | event :: groups', c :: cs' =>
      gap sourceClip currentPos event ++ flip_if_even event c ::
      timeline sourceClip (ge_end event) groups' cs'
  | _, _ => []
  end.

(** [currentPos] after the loop. *)
Definition cursor_after (currentPos : Q) (groups : list GroupedEvent) : Q :=
  fold_left (fun _ event => ge_end event) groups currentPos.

(** No group starts before the cursor or ends before it starts. *)
Fixpoint non_overlapping (currentPos : Q) (groups : list GroupedEvent) : bool :=
  match groups with
  | [] => true
  | event :: groups' =>
      Qle_bool currentPos (ge_start event) &&
      Qle_bool (ge_start event) (ge_end event) &&
      non_overlapping (ge_end event) groups'
  end.

(** ** The clip of a note *)

(** [sourceClip.subclip(0, duration)] *)
Definition trimmed (duration : Q) : Clip := Subclip Source duration.

Definition is_trimmed (c : Clip) : bool :=
  match c with Subclip Source _ => true | _ => false end.

(** [ceil(duration / sourceClip.duration)], as a natural number: the
    copies of the source [midisync_nogui.py] concatenates, and the
    iterations the [while] loop of [midisync.py] makes. *)
Definition loops (sourceClip : SourceClip) (duration : Q) : nat :=
  Z.to_nat (Qceiling (duration / src_duration sourceClip)).

(** The clip appended by one iteration of the [while] loop. *)
Definition chunk (forward : bool) (clipDuration : Q) : Clip :=
  if forward then Subclip Source clipDuration
  else Reversed (Subclip Source clipDuration) clipDuration.

(** Ping-pong playback as the specification words it: while time
    remains, the next chunk lasts [min(remaining, sourceDuration)], plays
    in the current direction, and the direction alternates. *)
Fixpoint ping_pong (sourceClip : SourceClip) (remaining : Q) (forward : bool)
    (chunks : list Clip) : Prop :=
  match chunks with
  | [] => remaining <= 0
  | c :: chunks' =>
      0 < remaining /\
      c = chunk forward (Py.min remaining (src_duration sourceClip)) /\
      ping_pong sourceClip (remaining - Py.min remaining (src_duration sourceClip))
                (negb forward) chunks'
  end.


(** The largest number of iterations a note of [groups] needs. *)
Definition fuel_needed (sourceClip : SourceClip) (groups : list GroupedEvent) : nat :=
  list_max (map (fun event => loops sourceClip (content_duration event)) groups).

(** A clip made for the note of [event], with what is known of it. *)
Definition made_for (sourceClip : SourceClip) (note_clip : Q -> Res Clip)
    (event : GroupedEvent) (c : Clip) : Prop :=
  note_clip (content_duration event) = Ok c /\
  is_filler c = false /\ is_flipped c = false /\
  (0 <= content_duration event ->
   clip_duration sourceClip c == content_duration event).

(** ** Inputs of the counterexamples *)

(** Two notes that overlap: pitch 60 sounds from 0 to 5, pitch 62 from 1
    to 2; and their groups. *)
Definition overlapping_stream : list Msg :=
  [ mkMsg note_on 60 64 0; mkMsg note_on 62 64 1;
    mkMsg note_off 62 0 1; mkMsg note_off 60 0 3 ].

Definition overlapping_groups : list GroupedEvent :=
  [ mkGroup 1 0 5; mkGroup 2 1 2 ].

(** ** Further vocabulary *)

(** The start and end a note event or a group carries. *)
Definition note_times (e : NoteEvent) : Q * Q := (ne_start e, ne_end e).

Definition group_times (g : GroupedEvent) : Q * Q := (ge_start g, ge_end g).

(** [msg] is a note begin or a note end for pitch [p]. *)
Definition touches (p : Z) (msg : Msg) : bool :=
  (is_begin msg || is_end msg) && (msg_note msg =? p)%Z.

(** What the message loop keeps when no delta time is negative: the
    clock is not negative, every recorded start lies between 0 and the
    clock, and every emitted note event starts at or after 0 and ends at
    or after its start. *)
Definition clock_bounds (st : ExtractState) : Prop :=
  0 <= currentTime st /\
  (forall p t, activeNotes st !! p = Some t -> 0 <= t /\ t <= currentTime st) /\
  Forall (fun e => 0 <= ne_start e /\ ne_start e <= ne_end e) (noteEvents st).

(** Each group starts more than the threshold after the one before it. *)
Fixpoint starts_apart (chordThreshold : Q) (groups : list GroupedEvent) : Prop :=
  match groups with
  | g :: (g' :: _) as rest =>
      chordThreshold < ge_start g' - ge_start g /\ starts_apart chordThreshold rest
  | _ => True
  end.

(** What the grouping loop keeps: the counter is the number of groups,
    the groups are numbered from 1, the kept start is the start of the
    last group, and the groups start more than the threshold apart. *)
Definition sweep_bounds (chordThreshold : Q) (st : SweepState) : Prop :=
  sw_noteNum st = Z.of_nat (length (groupedEvents st)) /\
  map noteNum (groupedEvents st) =
    map Z.of_nat (seq 1 (length (groupedEvents st))) /\
  lastStartTime st = option_map ge_start (last (groupedEvents st)) /\
  starts_apart chordThreshold (groupedEvents st).

(** A computation that hands no video to the encoder. *)
Definition writes_nothing {A : Type} (c : IO A) : Prop :=
  forall w, written (snd (c w)) = written w.

(** A computation that hands at most one video to the encoder: if it
    does, the frame rate [fps] is positive and the video goes to
    [outputPath] at that frame rate. *)
Definition writes_at_most {A : Type} (outputPath : string) (fps : Z) (c : IO A) : Prop :=
  forall w,
    written (snd (c w)) = written w \/
    (0 < fps)%Z /\
    exists finalVideo,
      written (snd (c w)) = written w ++ [(outputPath, finalVideo, fps)].

(** How a run of [createVideo] ends and what it has written by then,
    given how the program extracts groups and builds the timeline. *)
Definition run_outcome (extract : list Msg -> list GroupedEvent)
    (build : SourceClip -> list GroupedEvent -> Res (list Clip)) (fps : Z)
    (midiPath videoClipPath outputPath : string) (w : World)
    : Res unit * list (string * Clip * Z) :=
  match midi_files w !! midiPath with
  | None => (Raise IOError, written w)
  | Some mid =>
      match extract mid with
      | [] => (Ok tt, written w)
      | groups =>
          match video_files w !! videoClipPath with
          | None => (Raise IOError, written w)
          | Some sourceClip =>
              match bind (build sourceClip groups) concatenate_videoclips with
              | Ok finalVideo =>
                  if (fps =? 0)%Z then (Raise ZeroDivisionError, written w)
                  else if (fps <? 0)%Z then (Ok tt, written w)
                  else (Ok tt, written w ++ [(outputPath, finalVideo, fps)])
              | Raise e => (Raise e, written w)
              | OutOfFuel => (OutOfFuel, written w)
              end
          end
      end
  end.

(** * Python primitives *)

Lemma Py_gt_true x y : Py.gt x y = true <-> y < x.
Proof. unfold Py.gt. destruct (Qlt_le_dec y x); split; intros; try easy. lra. Qed.

Lemma Py_gt_false x y : Py.gt x y = false <-> x <= y.
Proof. unfold Py.gt. destruct (Qlt_le_dec y x); split; intros; try easy. lra. Qed.

Lemma Py_lt_true x y : Py.lt x y = true <-> x < y.
Proof. unfold Py.lt. destruct (Qlt_le_dec x y); split; intros; try easy. lra. Qed.

Lemma Py_lt_false x y : Py.lt x y = false <-> y <= x.
Proof. unfold Py.lt. destruct (Qlt_le_dec x y); split; intros; try easy. lra. Qed.

Lemma Py_min_l a b : a <= b -> Py.min a b = a.
Proof. intros H. unfold Py.min. destruct (Py.lt b a) eqn:E; [|reflexivity].
       apply Py_lt_true in E. lra. Qed.

Lemma Py_min_r a b : b < a -> Py.min a b = b.
Proof. intros H. unfold Py.min. apply Py_lt_true in H. now rewrite H. Qed.

(** * Properties of the extractor *)

(** ** The two transcriptions agree *)

Lemma on_msg_same : MidisyncNoGui.on_msg = Midisync.on_msg.
Proof. reflexivity. Qed.

Lemma on_note_same : MidisyncNoGui.on_note = Midisync.on_note.
Proof. reflexivity. Qed.

Lemma extract_same mid chordThreshold :
  MidisyncNoGui.extract mid chordThreshold = Midisync.extract mid chordThreshold.
Proof.
  unfold MidisyncNoGui.extract, Midisync.extract.
  unfold MidisyncNoGui.group_notes, Midisync.group_notes.
  unfold MidisyncNoGui.sweep, Midisync.sweep.
  unfold MidisyncNoGui.process_messages, Midisync.process_messages.
  now rewrite on_msg_same, on_note_same.
Qed.

(** ** Printing *)

Lemma print_all_spec ls w :
  print_all ls w = (Ok tt, with_stdout w (stdout w ++ ls)).
Proof.
  revert w. induction ls as [|l ls IH]; intros w; simpl.
  - unfold ret, with_stdout. rewrite app_nil_r. now destruct w.
  - unfold bindIO, print. rewrite IH. unfold with_stdout. simpl.
    now rewrite <- app_assoc.
Qed.

(** [extractNotes] reads the decoded file, returns [extract] of it and
    appends its report to the standard output; nothing else changes. *)
Lemma gui_extractNotes_spec filePath chordThreshold w :
  Midisync.extractNotes filePath chordThreshold w =
  match midi_files w !! filePath with
  | Some mid =>
      (Ok (Midisync.extract mid chordThreshold),
       with_stdout w (stdout w ++
         extraction_log "MIDI file path: " filePath (sorted_notes mid)
           (final_sweep mid chordThreshold)))
  | None => (Raise IOError, w)
  end.
Proof.
  unfold Midisync.extractNotes, bindIO, MidiFile.
  destruct (midi_files w !! filePath) as [mid|]; [|reflexivity].
  unfold print at 1 2 3 4 5 6. cbn [stdout midi_files video_files written].
  rewrite print_all_spec. unfold ret, with_stdout, extraction_log.
  cbn [stdout midi_files video_files written].
  rewrite <- !app_assoc. reflexivity.
Qed.

Lemma nogui_extractNotes_spec filePath chordThreshold w :
  MidisyncNoGui.extractNotes filePath chordThreshold w =
  match midi_files w !! filePath with
  | Some mid =>
      (Ok (MidisyncNoGui.extract mid chordThreshold),
       with_stdout w (stdout w ++
         extraction_log "MIDI file path : " filePath (sorted_notes mid)
           (final_sweep mid chordThreshold)))
  | None => (Raise IOError, w)
  end.
Proof.
  unfold MidisyncNoGui.extractNotes, bindIO, MidiFile.
  destruct (midi_files w !! filePath) as [mid|]; [|reflexivity].
  unfold print at 1 2 3 4 5 6. cbn [stdout midi_files video_files written].
  rewrite print_all_spec. unfold ret, with_stdout, extraction_log.
  cbn [stdout midi_files video_files written].
  rewrite <- !app_assoc. reflexivity.
Qed.

(** The result of [extractNotes] depends on the world only through the
    decoded file at [filePath]. *)
Lemma gui_extractNotes_result filePath chordThreshold w w' :
  midi_files w !! filePath = midi_files w' !! filePath ->
  fst (Midisync.extractNotes filePath chordThreshold w) =
  fst (Midisync.extractNotes filePath chordThreshold w').
Proof.
  intros H. rewrite !gui_extractNotes_spec, H.
  now destruct (midi_files w' !! filePath).
Qed.

Lemma nogui_extractNotes_result filePath chordThreshold w w' :
  midi_files w !! filePath = midi_files w' !! filePath ->
  fst (MidisyncNoGui.extractNotes filePath chordThreshold w) =
  fst (MidisyncNoGui.extractNotes filePath chordThreshold w').
Proof.
  intros H. rewrite !nogui_extractNotes_spec, H.
  now destruct (midi_files w' !! filePath).
Qed.

Lemma gui_extractNotes_files filePath chordThreshold w :
  midi_files (snd (Midisync.extractNotes filePath chordThreshold w)) = midi_files w.
Proof.
  rewrite gui_extractNotes_spec. now destruct (midi_files w !! filePath).
Qed.

Lemma nogui_extractNotes_files filePath chordThreshold w :
  midi_files (snd (MidisyncNoGui.extractNotes filePath chordThreshold w)) = midi_files w.
Proof.
  rewrite nogui_extractNotes_spec. now destruct (midi_files w !! filePath).
Qed.

(** C9.  Extraction is deterministic: a second run of [extractNotes] on
    the same path and threshold, started in the world the first run left
    behind (its report is on the standard output, the files are as they
    were), returns the same result as the first, in both programs. *)
Theorem extraction_deterministic :
  forall filePath chordThreshold w,
    let first := Midisync.extractNotes filePath chordThreshold w in
    let first' := MidisyncNoGui.extractNotes filePath chordThreshold w in
    fst (Midisync.extractNotes filePath chordThreshold (snd first)) = fst first /\
    fst (MidisyncNoGui.extractNotes filePath chordThreshold (snd first')) = fst first'.
Proof.
  intros filePath chordThreshold w first first'. split.
  - apply gui_extractNotes_result. unfold first.
    now rewrite gui_extractNotes_files.
  - apply nogui_extractNotes_result. unfold first'.
    now rewrite nogui_extractNotes_files.
Qed.


(** ** Unmatched events *)

Lemma begin_not_end msg : is_begin msg = true -> is_end msg = false.
Proof.
  unfold is_begin, is_end, is_note_on, is_note_off.
  destruct (msg_type msg); simpl; try discriminate.
  intros H. apply Z.ltb_lt in H. apply Z.eqb_neq. lia.
Qed.

Lemma on_msg_silence st msg : Midisync.on_msg st (silence msg) = tick st msg.
Proof. reflexivity. Qed.

Lemma on_msg_begin st msg :
  is_begin msg = true ->
  Midisync.on_msg st msg =
  {| noteEvents := noteEvents st;
     currentTime := currentTime st + msg_time msg;
     activeNotes := <[msg_note msg := currentTime st + msg_time msg]> (activeNotes st) |}.
Proof. unfold Midisync.on_msg, is_begin. now intros ->. Qed.

Lemma on_msg_end st msg :
  is_end msg = true ->
  Midisync.on_msg st msg =
  match activeNotes st !! msg_note msg with
  | Some startTime =>
      {| noteEvents := noteEvents st ++
                         [ {| pitch := msg_note msg; ne_start := startTime;
                              ne_end := currentTime st + msg_time msg |} ];
         currentTime := currentTime st + msg_time msg;
         activeNotes := delete (msg_note msg) (activeNotes st) |}
  | None => tick st msg
  end.
Proof.
  intros He. unfold Midisync.on_msg.
  destruct (is_note_on msg && (0 <? msg_velocity msg)%Z) eqn:Hb.
  - apply begin_not_end in Hb. congruence.
  - unfold is_end in He. now rewrite He.
Qed.

Lemma on_msg_other st msg :
  is_begin msg = false -> is_end msg = false ->
  Midisync.on_msg st msg = tick st msg.
Proof.
  unfold Midisync.on_msg, is_begin, is_end. now intros -> ->.
Qed.

Lemma agree_off_step p s1 s2 msg :
  ends_pitch p msg = false ->
  agree_off p s1 s2 ->
  agree_off p (Midisync.on_msg s1 msg) (Midisync.on_msg s2 msg).
Proof.
  intros Hne (Hev & Hclk & Hact). unfold agree_off.
  destruct (is_begin msg) eqn:Hb.
  - rewrite !on_msg_begin by assumption. cbn. rewrite Hev, Hclk.
    repeat split.
    destruct (decide (p = msg_note msg)) as [->|Hp].
    + now rewrite !delete_insert_eq.
    + rewrite !delete_insert_ne by assumption. now rewrite Hact.
  - destruct (is_end msg) eqn:He.
    + unfold ends_pitch in Hne. rewrite He in Hne. cbn in Hne.
      apply Z.eqb_neq in Hne.
      rewrite !on_msg_end by assumption.
      assert (Hlk : activeNotes s1 !! msg_note msg = activeNotes s2 !! msg_note msg).
      { rewrite <- (lookup_delete_ne (activeNotes s1) p (msg_note msg)) by congruence.
        rewrite <- (lookup_delete_ne (activeNotes s2) p (msg_note msg)) by congruence.
        now rewrite Hact. }
      rewrite Hlk.
      destruct (activeNotes s2 !! msg_note msg); cbn; rewrite Hev, Hclk.
      * repeat split. rewrite (delete_delete (activeNotes s1)), (delete_delete (activeNotes s2)).
        now rewrite Hact.
      * repeat split. assumption.
    + rewrite !on_msg_other by assumption. cbn. now rewrite Hev, Hclk.
Qed.

Lemma agree_off_run p mid s1 s2 :
  Forall (fun msg => ends_pitch p msg = false) mid ->
  agree_off p s1 s2 ->
  agree_off p (Midisync.process_messages mid s1) (Midisync.process_messages mid s2).
Proof.
  intros Hmid. revert s1 s2.
  induction Hmid as [|msg mid Hmsg _ IH]; intros s1 s2 H; cbn; [assumption|].
  apply IH. now apply agree_off_step.
Qed.

Lemma agree_off_begin p s1 s2 msg :
  is_begin msg = true -> msg_note msg = p ->
  agree_off p s1 s2 ->
  Midisync.on_msg s1 msg = Midisync.on_msg s2 msg.
Proof.
  intros Hb <- (Hev & Hclk & Hact).
  rewrite !on_msg_begin by assumption. rewrite Hev, Hclk. f_equal.
  rewrite <- (insert_delete_eq (activeNotes s1)), <- (insert_delete_eq (activeNotes s2)).
  now rewrite Hact.
Qed.

Lemma process_messages_app l1 l2 st :
  Midisync.process_messages (l1 ++ l2) st =
  Midisync.process_messages l2 (Midisync.process_messages l1 st).
Proof. apply fold_left_app. Qed.

Lemma process_messages_cons msg l st :
  Midisync.process_messages (msg :: l) st =
  Midisync.process_messages l (Midisync.on_msg st msg).
Proof. reflexivity. Qed.

(** C8.  Unmatched events are absorbed by the message loop of
    [extractNotes], which has no error result:
    - a note end whose pitch has no recorded start only advances the
      clock: no note event is emitted and the table is unchanged;
    - a note begin records the current time for its pitch, replacing any
      start recorded before, and emits nothing;
    - when a second begin for a pitch follows a first one with no end
      for that pitch in between, the whole run, its emitted note events
      included, is the same as if the first begin had been a message
      that only carries its delta time: the earlier note never becomes
      an interval. *)
Theorem unmatched_events_absorbed :
  (forall st msg,
      is_end msg = true -> activeNotes st !! msg_note msg = None ->
      Midisync.on_msg st msg = tick st msg) /\
  (forall st msg,
      is_begin msg = true ->
      noteEvents (Midisync.on_msg st msg) = noteEvents st /\
      activeNotes (Midisync.on_msg st msg) !! msg_note msg =
        Some (currentTime st + msg_time msg)) /\
  (forall pre first between second rest,
      is_begin first = true -> is_begin second = true ->
      msg_note second = msg_note first ->
      Forall (fun msg => ends_pitch (msg_note first) msg = false) between ->
      Midisync.process_messages (pre ++ first :: between ++ second :: rest) extract_init =
      Midisync.process_messages (pre ++ silence first :: between ++ second :: rest) extract_init).
Proof.
  split; [|split].
  - intros st msg He Hnone. rewrite on_msg_end by assumption. now rewrite Hnone.
  - intros st msg Hb. rewrite on_msg_begin by assumption. cbn. split; [reflexivity|].
    apply lookup_insert_eq.
  - intros pre first between second rest Hb1 Hb2 Hp Hbetween.
    rewrite !process_messages_app, !process_messages_cons.
    rewrite !process_messages_app, !process_messages_cons. f_equal.
    apply (agree_off_begin (msg_note first)); [assumption|assumption|].
    apply agree_off_run; [assumption|].
    rewrite on_msg_silence, on_msg_begin by assumption.
    unfold agree_off, tick. cbn. repeat split.
    apply delete_insert_eq.
Qed.

Lemma unmatched_events_absorbed_witness :
  let off60 := mkMsg note_off 60 0 1 in
  let on60 := mkMsg note_on 60 64 1 in
  let cc := mkMsg other_type 0 0 (1 # 2) in
  Midisync.on_msg extract_init off60 = tick extract_init off60 /\
  (noteEvents (Midisync.on_msg extract_init on60) = noteEvents extract_init /\
   activeNotes (Midisync.on_msg extract_init on60) !! 60%Z =
     Some (currentTime extract_init + 1)) /\
  Midisync.process_messages ([cc] ++ on60 :: [cc] ++ on60 :: [off60]) extract_init =
  Midisync.process_messages ([cc] ++ silence on60 :: [cc] ++ on60 :: [off60]) extract_init.
Proof.
  intros off60 on60 cc.
  destruct unmatched_events_absorbed as (A & B & C).
  split; [|split].
  - apply A; reflexivity.
  - apply (B extract_init on60); reflexivity.
  - apply C; try reflexivity. repeat constructor.
Defined.

(** ** Grouping *)

Lemma on_note_new chordThreshold st event :
  Midisync.starts_group chordThreshold (lastStartTime st) event = true ->
  Midisync.on_note chordThreshold st event =
  {| sw_noteNum := sw_noteNum st + 1;
     lastStartTime := Some (ne_start event);
     groupedEvents := groupedEvents st ++
                        [ {| noteNum := sw_noteNum st + 1;
                             ge_start := ne_start event;
                             ge_end := ne_end event |} ] |}.
Proof. unfold Midisync.on_note. now intros ->. Qed.

Lemma on_note_absorbed chordThreshold st event :
  Midisync.starts_group chordThreshold (lastStartTime st) event = false ->
  Midisync.on_note chordThreshold st event = st.
Proof. unfold Midisync.on_note. now intros ->. Qed.

Lemma starts_group_iff chordThreshold last event :
  Midisync.starts_group chordThreshold last event = true <->
  last = None \/ exists a, last = Some a /\ chordThreshold < ne_start event - a.
Proof.
  unfold Midisync.starts_group. destruct last as [a|].
  - rewrite Py_gt_true. split.
    + intros H. right. now exists a.
    + intros [H|(b & H & Hlt)]; [discriminate|]. now inversion H; subst.
  - split; [now left|reflexivity].
Qed.

Lemma sweep_app chordThreshold l1 l2 st :
  Midisync.sweep chordThreshold (l1 ++ l2) st =
  Midisync.sweep chordThreshold l2 (Midisync.sweep chordThreshold l1 st).
Proof. apply fold_left_app. Qed.

Lemma sweep_absorbs chordThreshold a chain st :
  lastStartTime st = Some a ->
  Forall (fun event => ne_start event - a <= chordThreshold) chain ->
  Midisync.sweep chordThreshold chain st = st.
Proof.
  intros Hlast Hchain.
  induction Hchain as [|event chain Hev _ IH]; [reflexivity|].
  cbn. rewrite on_note_absorbed; [exact IH|].
  rewrite Hlast. cbn. now apply Py_gt_false.
Qed.

Lemma sweep_only_appends chordThreshold events : forall st,
  exists new,
    groupedEvents (Midisync.sweep chordThreshold events st) = groupedEvents st ++ new.
Proof.
  induction events as [|event events IH]; intros st.
  - exists []. cbn. now rewrite app_nil_r.
  - change (Midisync.sweep chordThreshold (event :: events) st)
      with (Midisync.sweep chordThreshold events (Midisync.on_note chordThreshold st event)).
    destruct (IH (Midisync.on_note chordThreshold st event)) as (new & Hnew).
    rewrite Hnew. unfold Midisync.on_note.
    destruct (Midisync.starts_group chordThreshold (lastStartTime st) event).
    + cbn [groupedEvents]. rewrite <- app_assoc. eauto.
    + eauto.
Qed.

Lemma sweep_unchanged_absorbed chordThreshold chain : forall st a,
  lastStartTime st = Some a ->
  groupedEvents (Midisync.sweep chordThreshold chain st) = groupedEvents st ->
  Forall (fun event => ne_start event - a <= chordThreshold) chain.
Proof.
  induction chain as [|event chain IH]; intros st a Hlast Hsame; [constructor|].
  change (Midisync.sweep chordThreshold (event :: chain) st)
    with (Midisync.sweep chordThreshold chain (Midisync.on_note chordThreshold st event))
    in Hsame.
  destruct (Midisync.starts_group chordThreshold (lastStartTime st) event) eqn:E.
  - exfalso. rewrite on_note_new in Hsame by assumption.
    match type of Hsame with
    | groupedEvents (Midisync.sweep _ _ ?st') = _ =>
        destruct (sweep_only_appends chordThreshold chain st') as (new & Hnew)
    end.
    rewrite Hnew in Hsame. cbn [groupedEvents] in Hsame.
    apply (f_equal (@length _)) in Hsame. rewrite !length_app in Hsame.
    cbn [length] in Hsame. lia.
  - rewrite on_note_absorbed in Hsame by assumption.
    constructor; [|now apply (IH st a)].
    rewrite Hlast in E. cbn in E. now apply Py_gt_false in E.
Qed.

(** The claim C4 fails on a slow drift: in the sorted notes with starts
    0, 0.08 and 0.16 each note is within the threshold 0.1 of the note
    before it and the starts span more than the threshold, yet the
    notes are not merged into one group: the third note, more than the
    threshold after the kept start 0, opens group 2. *)
Lemma drifting_chain_is_split :
  let first := mkNote 60 0 1 in
  let second := mkNote 62 (8 # 100) 1 in
  let third := mkNote 64 (16 # 100) 1 in
  StronglySorted by_start [ first; second; third ] /\
  ne_start second - ne_start first <= 1 # 10 /\
  ne_start third - ne_start second <= 1 # 10 /\
  1 # 10 < ne_start third - ne_start first /\
  Midisync.group_notes (1 # 10) [ first; second; third ] =
    [ mkGroup 1 0 1; mkGroup 2 (16 # 100) 1 ] /\
  Midisync.group_notes (1 # 10) [ first; second; third ] <> [ mkGroup 1 0 1 ].
Proof.
  cbv zeta. split.
  - repeat (constructor; try (unfold by_start; cbn; lra)).
  - split; [cbn; lra|]. split; [cbn; lra|]. split; [cbn; lra|].
    split; [reflexivity|]. intros H. vm_compute in H. discriminate H.
Qed.

(** C4, amended.  Grouping is a greedy left-to-right sweep, for every
    threshold and every list of note events (sorted ones in
    particular):
    - a note starts a new group exactly when no start has been kept yet
      or its start exceeds the last kept start by more than the
      threshold; the new group takes the next number and the note's own
      start and end;
    - otherwise the note is absorbed: the state, and with it every
      recorded group, is unchanged;
    - a chain of notes each within the threshold of the kept start can
      be deleted from the input without changing the result, wherever
      their ends lie;
    - so a first note followed by such a chain yields one group, with
      the first note's start and end;
    - the two programs group alike;
    - the threshold is measured from the kept start, not from the note
      before: the first note more than the threshold after the kept
      start opens group 2 with its own start and end, however close it
      is to the note before it;
    - so notes are merged into one group only when each of them is
      within the threshold of the first note's start. *)
Theorem grouping_is_greedy_sweep :
  forall chordThreshold,
    (forall st event,
        Midisync.on_note chordThreshold st event <> st <->
        lastStartTime st = None \/
        exists a, lastStartTime st = Some a /\ chordThreshold < ne_start event - a) /\
    (forall st event,
        Midisync.on_note chordThreshold st event <> st ->
        Midisync.on_note chordThreshold st event =
        {| sw_noteNum := sw_noteNum st + 1;
           lastStartTime := Some (ne_start event);
           groupedEvents := groupedEvents st ++
                              [ {| noteNum := sw_noteNum st + 1;
                                   ge_start := ne_start event;
                                   ge_end := ne_end event |} ] |}) /\
    (forall st a chain rest,
        lastStartTime st = Some a ->
        Forall (fun event => ne_start event - a <= chordThreshold) chain ->
        Midisync.sweep chordThreshold (chain ++ rest) st =
        Midisync.sweep chordThreshold rest st) /\
    (forall first chain,
        Forall (fun event => ne_start event - ne_start first <= chordThreshold) chain ->
        Midisync.group_notes chordThreshold (first :: chain) =
        [ {| noteNum := 1; ge_start := ne_start first; ge_end := ne_end first |} ]) /\
    MidisyncNoGui.group_notes chordThreshold = Midisync.group_notes chordThreshold /\
    (forall first chain next rest,
        Forall (fun event => ne_start event - ne_start first <= chordThreshold) chain ->
        chordThreshold < ne_start next - ne_start first ->
        exists more,
          Midisync.group_notes chordThreshold (first :: chain ++ next :: rest) =
          {| noteNum := 1; ge_start := ne_start first; ge_end := ne_end first |} ::
          {| noteNum := 2; ge_start := ne_start next; ge_end := ne_end next |} :: more) /\
    (forall first chain,
        Midisync.group_notes chordThreshold (first :: chain) =
        [ {| noteNum := 1; ge_start := ne_start first; ge_end := ne_end first |} ] ->
        Forall (fun event => ne_start event - ne_start first <= chordThreshold) chain).
Proof.
  intros chordThreshold.
  assert (Hstep : forall st event,
             Midisync.on_note chordThreshold st event <> st ->
             Midisync.starts_group chordThreshold (lastStartTime st) event = true).
  { intros st event Hne.
    destruct (Midisync.starts_group chordThreshold (lastStartTime st) event) eqn:E;
      [reflexivity|].
    exfalso. apply Hne. now apply on_note_absorbed. }
  assert (Hfirst : forall first events,
             Midisync.sweep chordThreshold (first :: events) sweep_init =
             Midisync.sweep chordThreshold events
               {| sw_noteNum := 1; lastStartTime := Some (ne_start first);
                  groupedEvents :=
                    [ {| noteNum := 1; ge_start := ne_start first;
                         ge_end := ne_end first |} ] |}).
  { intros first events.
    change (Midisync.sweep chordThreshold (first :: events) sweep_init)
      with (Midisync.sweep chordThreshold events
              (Midisync.on_note chordThreshold sweep_init first)).
    now rewrite on_note_new by reflexivity. }
  split; [|split; [|split; [|split; [|split; [|split]]]]].
  - intros st event. rewrite <- starts_group_iff. split; [apply Hstep|].
    intros Hs Heq. rewrite on_note_new in Heq by assumption.
    apply (f_equal (fun s => length (groupedEvents s))) in Heq.
    cbn in Heq. rewrite length_app in Heq. cbn in Heq. lia.
  - intros st event Hne. apply on_note_new. now apply Hstep.
  - intros st a chain rest Hlast Hchain.
    rewrite sweep_app.
    rewrite (sweep_absorbs chordThreshold a chain st Hlast Hchain). reflexivity.
  - intros first chain Hchain. unfold Midisync.group_notes.
    change (Midisync.sweep chordThreshold (first :: chain) sweep_init)
      with (Midisync.sweep chordThreshold chain
              (Midisync.on_note chordThreshold sweep_init first)).
    rewrite on_note_new by reflexivity.
    rewrite (sweep_absorbs chordThreshold (ne_start first)); [reflexivity|reflexivity|assumption].
  - reflexivity.
  - intros first chain next rest Hchain Hnext. unfold Midisync.group_notes.
    rewrite Hfirst, sweep_app.
    rewrite (fun st H => sweep_absorbs chordThreshold (ne_start first) chain st H Hchain)
      by reflexivity.
    change (Midisync.sweep chordThreshold (next :: rest) ?st)
      with (Midisync.sweep chordThreshold rest (Midisync.on_note chordThreshold st next)).
    rewrite on_note_new by (cbn; now apply Py_gt_true).
    match goal with
    | |- context [Midisync.sweep _ _ ?st'] =>
        destruct (sweep_only_appends chordThreshold rest st') as (more & Hmore)
    end.
    rewrite Hmore. exists more. reflexivity.
  - intros first chain Hone. unfold Midisync.group_notes in Hone.
    rewrite Hfirst in Hone.
    eapply sweep_unchanged_absorbed; [|exact Hone]. reflexivity.
Qed.

Lemma grouping_is_greedy_sweep_witness :
  let first := mkNote 60 0 (1 # 2) in
  let second := mkNote 64 (1 # 20) 3 in
  let third := mkNote 67 (1 # 10) 1 in
  let drift := mkNote 69 (3 # 20) 1 in
  let st := Midisync.on_note (1 # 10) sweep_init first in
  Midisync.on_note (1 # 10) st (mkNote 72 1 2) =
    {| sw_noteNum := 2; lastStartTime := Some 1;
       groupedEvents := groupedEvents st ++ [ mkGroup 2 1 2 ] |} /\
  Midisync.sweep (1 # 10) ([second; third] ++ [mkNote 72 1 2]) st =
    Midisync.sweep (1 # 10) [mkNote 72 1 2] st /\
  Midisync.group_notes (1 # 10) [first; second; third] = [ mkGroup 1 0 (1 # 2) ] /\
  (exists more,
      Midisync.group_notes (1 # 10) (first :: [second; third] ++ drift :: [mkNote 72 1 2]) =
      mkGroup 1 0 (1 # 2) :: mkGroup 2 (3 # 20) 1 :: more) /\
  Forall (fun event => ne_start event - 0 <= 1 # 10) [second; third].
Proof.
  intros first second third drift st.
  destruct (grouping_is_greedy_sweep (1 # 10)) as (A & B & C & D & _ & E & F).
  split; [|split; [|split; [|split]]].
  - apply (B st (mkNote 72 1 2)). apply A. right. exists 0.
    split; [reflexivity|]. cbn. lra.
  - apply (C st 0); [reflexivity|].
    repeat constructor; cbn; lra.
  - apply (D first [second; third]).
    repeat constructor; cbn; lra.
  - apply (E first [second; third] drift [mkNote 72 1 2]).
    + repeat constructor; cbn; lra.
    + cbn. lra.
  - apply (F first [second; third]). reflexivity.
Defined.

(** * Properties of the timeline builder *)

(** ** Sums of durations *)

Lemma Qsum_app l1 l2 : Qsum (l1 ++ l2) == Qsum l1 + Qsum l2.
Proof.
  unfold Qsum. induction l1 as [|x l1 IH]; cbn [app fold_right].
  - lra.
  - rewrite IH. lra.
Qed.

Lemma total_duration_app sourceClip l1 l2 :
  total_duration sourceClip (l1 ++ l2) ==
  total_duration sourceClip l1 + total_duration sourceClip l2.
Proof. unfold total_duration. rewrite map_app. apply Qsum_app. Qed.

Lemma total_duration_cons sourceClip c l :
  total_duration sourceClip (c :: l) =
  clip_duration sourceClip c + total_duration sourceClip l.
Proof. reflexivity. Qed.

Lemma total_duration_repeat sourceClip n :
  total_duration sourceClip (repeat Source n) ==
  inject_Z (Z.of_nat n) * src_duration sourceClip.
Proof.
  induction n as [|n IH].
  - unfold total_duration, Qsum. cbn [repeat map fold_right].
    change (inject_Z (Z.of_nat 0)) with 0. lra.
  - cbn [repeat]. rewrite total_duration_cons, IH. cbn [clip_duration].
    rewrite Nat2Z.inj_succ. unfold Z.succ. rewrite inject_Z_plus.
    change (inject_Z 1) with 1. ring.
Qed.

(** ** The loop over the groups, for any fit policy *)

Section Builder.

Variable sourceClip : SourceClip.
Variable note_clip : Q -> Res Clip.

Lemma foldM_on_event_ok groups : forall cs videoClips currentPos,
  Forall2 (fun event c => note_clip (content_duration event) = Ok c) groups cs ->
  foldM (on_event_with sourceClip note_clip) groups (videoClips, currentPos) =
  Ok (videoClips ++ timeline sourceClip currentPos groups cs, cursor_after currentPos groups).
Proof.
  induction groups as [|event groups IH]; intros cs videoClips currentPos H.
  - inversion H; subst. cbn. now rewrite app_nil_r.
  - inversion H as [|? c ? cs' Hc Hrest]; subst. cbn [foldM].
    unfold on_event_with at 1. rewrite Hc. cbn [bind fst snd].
    rewrite (IH cs') by assumption. cbn [timeline cursor_after fold_left].
    f_equal. f_equal. rewrite <- !app_assoc. reflexivity.
Qed.

Lemma foldM_on_event_inv groups : forall videoClips currentPos st,
  foldM (on_event_with sourceClip note_clip) groups (videoClips, currentPos) = Ok st ->
  exists cs,
    Forall2 (fun event c => note_clip (content_duration event) = Ok c) groups cs /\
    st = (videoClips ++ timeline sourceClip currentPos groups cs, cursor_after currentPos groups).
Proof.
  induction groups as [|event groups IH]; intros videoClips currentPos st H.
  - cbn in H. inversion H; subst. exists []. split; [constructor|].
    cbn. now rewrite app_nil_r.
  - cbn [foldM] in H. unfold on_event_with at 1 in H.
    destruct (note_clip (content_duration event)) as [c| |] eqn:Hc; try discriminate.
    cbn [bind fst snd] in H. apply IH in H. destruct H as (cs & Hcs & ->).
    exists (c :: cs). split; [now constructor|].
    cbn [timeline cursor_after fold_left]. f_equal. rewrite <- !app_assoc. reflexivity.
Qed.

(** Flips follow the parity of the group's own number. *)
Lemma timeline_flips : forall groups cs currentPos,
  Forall (fun c => is_filler c = false /\ is_flipped c = false) cs ->
  length cs = length groups ->
  map is_flipped (List.filter is_content (timeline sourceClip currentPos groups cs)) =
  map (fun event => Z.even (noteNum event)) groups.
Proof.
  induction groups as [|event groups IH]; intros cs currentPos Hcs Hlen.
  - now destruct cs.
  - destruct cs as [|c cs]; [discriminate|]. inversion Hcs as [|? ? [Hf Hfl] Hrest]; subst.
    cbn [timeline]. rewrite List.filter_app. cbn [List.filter].
    assert (Hgap : List.filter is_content (gap sourceClip currentPos event) = []).
    { unfold gap. now destruct (Py.gt _ _). }
    rewrite Hgap. cbn [app].
    assert (Hc : is_content (flip_if_even event c) = true
                 /\ is_flipped (flip_if_even event c) = Z.even (noteNum event)).
    { unfold flip_if_even, is_content.
      rewrite Zeven_mod.
      destruct (Z.eqb_spec (noteNum event mod 2) 0) as [E|E]; cbn.
      - split; reflexivity.
      - now rewrite Hf, Hfl. }
    destruct Hc as [Hc1 Hc2]. rewrite Hc1. cbn [map]. rewrite Hc2.
    f_equal. apply IH; [assumption|]. cbn in Hlen. lia.
Qed.

End Builder.

Lemma filler_not_flipped c : is_filler c = true -> is_flipped c = false.
Proof. now destruct c. Qed.

Lemma gui_on_event fuel sourceClip st event :
  Midisync.on_event fuel sourceClip st event =
  on_event_with sourceClip (Midisync.note_clip fuel sourceClip) st event.
Proof.
  destruct st as [videoClips currentPos].
  unfold Midisync.on_event, on_event_with, gap, flip_if_even, content_duration.
  cbn [fst snd].
  destruct (Midisync.note_clip fuel sourceClip (ge_end event - ge_start event));
    try reflexivity.
  cbn [bind]. destruct (Py.gt (ge_start event) currentPos); cbn [app];
    now rewrite <- ?app_assoc.
Qed.

Lemma nogui_on_event sourceClip st event :
  MidisyncNoGui.on_event sourceClip st event =
  on_event_with sourceClip (MidisyncNoGui.note_clip sourceClip) st event.
Proof.
  destruct st as [videoClips currentPos].
  unfold MidisyncNoGui.on_event, on_event_with, gap, flip_if_even, content_duration.
  cbn [fst snd].
  destruct (MidisyncNoGui.note_clip sourceClip (ge_end event - ge_start event));
    try reflexivity.
  cbn [bind]. destruct (Py.gt (ge_start event) currentPos); cbn [app];
    now rewrite <- ?app_assoc.
Qed.

Lemma foldM_ext {A B : Type} (f g : A -> B -> Res A) l a :
  (forall a b, f a b = g a b) -> foldM f l a = foldM g l a.
Proof.
  intros H. revert a. induction l as [|b l IH]; intros a; cbn; [reflexivity|].
  rewrite H. destruct (g a b); cbn; auto.
Qed.

Lemma gui_build_timeline fuel sourceClip groups :
  Midisync.build_timeline fuel sourceClip groups =
  bind (foldM (on_event_with sourceClip (Midisync.note_clip fuel sourceClip)) groups ([], 0))
       (fun st => Ok (fst st)).
Proof.
  unfold Midisync.build_timeline. f_equal. apply foldM_ext. apply gui_on_event.
Qed.

Lemma nogui_build_timeline sourceClip groups :
  MidisyncNoGui.build_timeline sourceClip groups =
  bind (foldM (on_event_with sourceClip (MidisyncNoGui.note_clip sourceClip)) groups ([], 0))
       (fun st => Ok (fst st)).
Proof.
  unfold MidisyncNoGui.build_timeline. f_equal. apply foldM_ext. apply nogui_on_event.
Qed.

(** ** The clip of one note *)

Lemma subclip_source sourceClip t_end :
  0 <= src_duration sourceClip ->
  subclip sourceClip Source t_end = Ok (trimmed t_end).
Proof.
  intros H. unfold subclip. cbn [clip_duration].
  apply Py_gt_false in H. now rewrite H.
Qed.

Lemma clip_duration_subclip sourceClip c t_end :
  0 <= t_end -> clip_duration sourceClip (Subclip c t_end) = t_end.
Proof. intros H. cbn [clip_duration]. apply Py_lt_false in H. now rewrite H. Qed.

Lemma gui_note_clip_fits fuel sourceClip duration :
  0 <= src_duration sourceClip -> duration <= src_duration sourceClip ->
  Midisync.note_clip fuel sourceClip duration = Ok (trimmed duration).
Proof.
  intros H0 H. unfold Midisync.note_clip. apply Py_lt_false in H. rewrite H.
  now apply subclip_source.
Qed.

Lemma nogui_note_clip_fits sourceClip duration :
  0 <= src_duration sourceClip -> duration <= src_duration sourceClip ->
  MidisyncNoGui.note_clip sourceClip duration = Ok (trimmed duration).
Proof.
  intros H0 H. unfold MidisyncNoGui.note_clip. apply Py_lt_false in H. rewrite H.
  now apply subclip_source.
Qed.

(** *** Looping (midisync_nogui.py) *)

Lemma Qceiling_pos x : 0 < x -> (0 < Qceiling x)%Z.
Proof.
  intros H. pose proof (Qle_ceiling x) as Hc.
  rewrite Zlt_Qlt. change (inject_Z 0) with 0. lra.
Qed.

Lemma loops_pos sourceClip duration :
  0 < src_duration sourceClip -> 0 < duration -> (0 < loops sourceClip duration)%nat.
Proof.
  intros Hs Hd. unfold loops.
  assert (0 < duration / src_duration sourceClip).
  { apply Qlt_shift_div_l; [assumption|]. lra. }
  pose proof (Qceiling_pos _ H). lia.
Qed.

Lemma loops_cover sourceClip duration :
  0 < src_duration sourceClip -> 0 < duration ->
  duration <= inject_Z (Z.of_nat (loops sourceClip duration)) * src_duration sourceClip.
Proof.
  intros Hs Hd. unfold loops.
  assert (Hq : 0 < duration / src_duration sourceClip).
  { apply Qlt_shift_div_l; [assumption|]. lra. }
  pose proof (Qceiling_pos _ Hq) as Hc.
  rewrite Z2Nat.id by lia.
  pose proof (Qle_ceiling (duration / src_duration sourceClip)) as Hle.
  apply (Qmult_le_compat_r _ _ (src_duration sourceClip)) in Hle; [|lra].
  assert (Hdiv : duration / src_duration sourceClip * src_duration sourceClip == duration).
  { field. lra. }
  rewrite Hdiv in Hle. exact Hle.
Qed.

Lemma nogui_note_clip_loops sourceClip duration :
  0 < src_duration sourceClip -> src_duration sourceClip < duration ->
  MidisyncNoGui.note_clip sourceClip duration =
  Ok (Subclip (Concatenate (repeat Source (loops sourceClip duration))) duration).
Proof.
  intros Hs Hd. unfold MidisyncNoGui.note_clip, MidisyncNoGui.numLoops.
  apply Py_lt_true in Hd as Hlt. rewrite Hlt.
  destruct (Qeq_bool (src_duration sourceClip) 0) eqn:E.
  { apply Qeq_bool_iff in E. lra. }
  cbn [bind]. fold (loops sourceClip duration).
  pose proof (loops_pos sourceClip duration Hs ltac:(lra)) as Hn.
  destruct (loops sourceClip duration) as [|n] eqn:En; [lia|].
  cbn [repeat concatenate_videoclips bind].
  unfold subclip.
  assert (Hdur : 0 <= clip_duration sourceClip (Concatenate (Source :: repeat Source n))).
  { cbn [clip_duration].
    change (Qsum (map (clip_duration sourceClip) (Source :: repeat Source n)))
      with (total_duration sourceClip (repeat Source (S n))).
    rewrite total_duration_repeat.
    apply Qmult_le_0_compat; [|lra].
    change 0 with (inject_Z 0). rewrite <- Zle_Qle. lia. }
  apply Py_gt_false in Hdur. now rewrite Hdur.
Qed.

(** With a source of positive duration, [midisync_nogui.py] makes a clip
    for every note; it shows the source, is not yet flipped, and lasts
    as long as the note when the note's duration is not negative. *)
Lemma nogui_note_clip_total sourceClip duration :
  0 < src_duration sourceClip ->
  exists c, MidisyncNoGui.note_clip sourceClip duration = Ok c /\
            is_filler c = false /\ is_flipped c = false /\
            (0 <= duration -> clip_duration sourceClip c = duration).
Proof.
  intros Hs. destruct (Qlt_le_dec (src_duration sourceClip) duration) as [H|H].
  - eexists. split; [now apply nogui_note_clip_loops|].
    repeat split. apply clip_duration_subclip.
  - exists (trimmed duration). split; [apply nogui_note_clip_fits; lra|].
    repeat split. apply clip_duration_subclip.
Qed.

(** *** Bouncing (midisync.py) *)

Lemma clip_duration_chunk sourceClip forward clipDuration :
  0 <= clipDuration -> clip_duration sourceClip (chunk forward clipDuration) = clipDuration.
Proof.
  intros H. destruct forward; cbn [chunk clip_duration]; [|reflexivity].
  apply Py_lt_false in H. now rewrite H.
Qed.

Lemma min_bounds a b : 0 < a -> 0 < b -> 0 < Py.min a b /\ Py.min a b <= a /\ Py.min a b <= b.
Proof.
  intros Ha Hb. unfold Py.min. destruct (Py.lt b a) eqn:E.
  - apply Py_lt_true in E. lra.
  - apply Py_lt_false in E. lra.
Qed.

Lemma bounce_loop_stop fuel sourceClip clips remainingDuration forward :
  remainingDuration <= 0 ->
  Midisync.bounce_loop fuel sourceClip clips remainingDuration forward = Ok clips.
Proof.
  intros H. apply Py_gt_false in H. destruct fuel; cbn; now rewrite H.
Qed.

Lemma bounce_loop_step fuel sourceClip clips remainingDuration forward :
  0 < src_duration sourceClip -> 0 < remainingDuration ->
  Midisync.bounce_loop (S fuel) sourceClip clips remainingDuration forward =
  Midisync.bounce_loop fuel sourceClip
    (clips ++ [chunk forward (Py.min remainingDuration (src_duration sourceClip))])
    (remainingDuration - Py.min remainingDuration (src_duration sourceClip))
    (negb forward).
Proof.
  intros Hs Hr. cbn [Midisync.bounce_loop].
  apply Py_gt_true in Hr. rewrite Hr.
  rewrite subclip_source by lra. cbn [bind]. unfold trimmed, chunk.
  now destruct forward.
Qed.

Lemma bounce_loop_out_of_fuel sourceClip clips remainingDuration forward :
  0 < remainingDuration ->
  Midisync.bounce_loop 0 sourceClip clips remainingDuration forward = OutOfFuel.
Proof. intros Hr. cbn. apply Py_gt_true in Hr. now rewrite Hr. Qed.

(** Enough iterations finish the loop, and its chunks play ping-pong. *)
Lemma bounce_loop_runs sourceClip :
  0 < src_duration sourceClip ->
  forall fuel clips remainingDuration forward,
    remainingDuration <= inject_Z (Z.of_nat fuel) * src_duration sourceClip ->
    exists chunks,
      Midisync.bounce_loop fuel sourceClip clips remainingDuration forward =
        Ok (clips ++ chunks) /\
      ping_pong sourceClip remainingDuration forward chunks.
Proof.
  intros Hs. induction fuel as [|fuel IH]; intros clips rem forward Hfuel.
  - change (inject_Z (Z.of_nat 0)) with 0 in Hfuel.
    exists []. split; [|cbn; lra].
    rewrite app_nil_r. apply bounce_loop_stop. lra.
  - destruct (Qlt_le_dec 0 rem) as [Hr|Hr].
    + rewrite bounce_loop_step by assumption.
      destruct (min_bounds rem (src_duration sourceClip) Hr Hs) as (Hm0 & Hm1 & Hm2).
      destruct (IH (clips ++ [chunk forward (Py.min rem (src_duration sourceClip))])
                   (rem - Py.min rem (src_duration sourceClip)) (negb forward))
        as (chunks & Hrun & Hpp).
      { rewrite Nat2Z.inj_succ in Hfuel. unfold Z.succ in Hfuel.
        rewrite inject_Z_plus in Hfuel. change (inject_Z 1) with 1 in Hfuel.
        unfold Py.min in *. destruct (Py.lt (src_duration sourceClip) rem) eqn:E.
        - lra.
        - assert (0 <= inject_Z (Z.of_nat fuel) * src_duration sourceClip).
          { apply Qmult_le_0_compat; [|lra].
            change 0 with (inject_Z 0). rewrite <- Zle_Qle. lia. }
          lra. }
      exists (chunk forward (Py.min rem (src_duration sourceClip)) :: chunks).
      split.
      * rewrite Hrun. now rewrite <- app_assoc.
      * cbn [ping_pong]. repeat split; assumption.
    + exists []. split; [|exact Hr].
      rewrite app_nil_r. now apply bounce_loop_stop.
Qed.

(** More iterations than needed change nothing. *)
Lemma bounce_loop_more sourceClip :
  0 < src_duration sourceClip ->
  forall fuel clips remainingDuration forward result,
    Midisync.bounce_loop fuel sourceClip clips remainingDuration forward = Ok result ->
    forall fuel', (fuel <= fuel')%nat ->
    Midisync.bounce_loop fuel' sourceClip clips remainingDuration forward = Ok result.
Proof.
  intros Hs. induction fuel as [|fuel IH]; intros clips rem forward result Hrun fuel' Hle.
  - destruct (Qlt_le_dec 0 rem) as [Hr|Hr].
    + rewrite bounce_loop_out_of_fuel in Hrun by assumption. discriminate.
    + rewrite bounce_loop_stop in Hrun by assumption.
      rewrite bounce_loop_stop by assumption. exact Hrun.
  - destruct (Qlt_le_dec 0 rem) as [Hr|Hr].
    + destruct fuel' as [|fuel']; [lia|].
      rewrite bounce_loop_step in * by assumption.
      apply (IH _ _ _ _ Hrun). lia.
    + rewrite bounce_loop_stop in Hrun by assumption.
      rewrite bounce_loop_stop by assumption. exact Hrun.
Qed.

(** The durations of ping-pong chunks add up to the time to fill, and no
    prefix of them exceeds it. *)
Lemma ping_pong_total sourceClip :
  0 < src_duration sourceClip ->
  forall chunks remaining forward,
    0 <= remaining ->
    ping_pong sourceClip remaining forward chunks ->
    total_duration sourceClip chunks == remaining.
Proof.
  intros Hs. induction chunks as [|c chunks IH]; intros rem forward H0 Hpp.
  - cbn in Hpp. unfold total_duration, Qsum. cbn. lra.
  - destruct Hpp as (Hr & -> & Hpp).
    destruct (min_bounds rem (src_duration sourceClip) Hr Hs) as (Hm0 & Hm1 & Hm2).
    rewrite total_duration_cons, clip_duration_chunk by lra.
    assert (Hrest : 0 <= rem - Py.min rem (src_duration sourceClip)) by lra.
    rewrite (IH _ _ Hrest Hpp). lra.
Qed.





Lemma fuel_covers sourceClip duration fuel :
  0 < src_duration sourceClip -> 0 < duration ->
  (loops sourceClip duration <= fuel)%nat ->
  duration <= inject_Z (Z.of_nat fuel) * src_duration sourceClip.
Proof.
  intros Hs Hd Hle.
  apply Qle_trans with (inject_Z (Z.of_nat (loops sourceClip duration)) * src_duration sourceClip).
  - now apply loops_cover.
  - apply Qmult_le_compat_r; [|lra]. rewrite <- Zle_Qle. lia.
Qed.



(** With source duration 2 and content duration 5 the chunks are 2
    forward, 2 reversed, 1 forward. *)
Remark bounce_two_into_five :
  Midisync.bounce_loop 3 (mkSource 2 640 480) [] 5 true =
  Ok [ Subclip Source 2; Reversed (Subclip Source 2) 2; Subclip Source (5 - 2 - 2) ].
Proof. reflexivity. Qed.

(** A source of duration zero makes the loop run forever: no bound on
    the number of iterations is enough. *)
Remark bounce_never_ends_on_empty_source :
  forall fuel sourceClip clips remainingDuration forward,
    src_duration sourceClip == 0 -> 0 < remainingDuration ->
    Midisync.bounce_loop fuel sourceClip clips remainingDuration forward = OutOfFuel.
Proof.
  induction fuel as [|fuel IH]; intros sourceClip clips rem forward Hs Hr.
  - now apply bounce_loop_out_of_fuel.
  - cbn [Midisync.bounce_loop]. apply Py_gt_true in Hr as Hgt. rewrite Hgt.
    rewrite subclip_source by lra. cbn [bind].
    apply IH; [assumption|].
    unfold Py.min. destruct (Py.lt (src_duration sourceClip) rem) eqn:E; [lra|].
    apply Py_lt_false in E. lra.
Qed.

Lemma gui_note_clip_more sourceClip fuel fuel' duration c :
  0 < src_duration sourceClip -> (fuel <= fuel')%nat ->
  Midisync.note_clip fuel sourceClip duration = Ok c ->
  Midisync.note_clip fuel' sourceClip duration = Ok c.
Proof.
  intros Hs Hle. unfold Midisync.note_clip.
  destruct (Py.lt (src_duration sourceClip) duration); [|easy].
  destruct (Midisync.bounce_loop fuel sourceClip [] duration true) as [clips| |] eqn:E;
    try discriminate.
  now rewrite (bounce_loop_more sourceClip Hs _ _ _ _ _ E fuel' Hle).
Qed.

Lemma gui_note_clip_bounces sourceClip fuel duration :
  0 < src_duration sourceClip -> src_duration sourceClip < duration ->
  (loops sourceClip duration <= fuel)%nat ->
  exists chunks,
    Midisync.note_clip fuel sourceClip duration = Ok (Concatenate chunks) /\
    ping_pong sourceClip duration true chunks /\
    total_duration sourceClip chunks == duration.
Proof.
  intros Hs Hlt Hfuel.
  destruct (bounce_loop_runs sourceClip Hs fuel [] duration true)
    as (chunks & Hrun & Hpp).
  { apply fuel_covers; [assumption|lra|assumption]. }
  cbn [app] in Hrun. exists chunks. split; [|split].
  - unfold Midisync.note_clip. apply Py_lt_true in Hlt. rewrite Hlt, Hrun.
    cbn [bind]. destruct chunks; [|reflexivity].
    cbn in Hpp. apply Py_lt_true in Hlt. lra.
  - exact Hpp.
  - apply (ping_pong_total sourceClip Hs chunks duration true); [lra|assumption].
Qed.

(** With a source of positive duration and enough iterations,
    [midisync.py] makes a clip for every note; it shows the source, is
    not yet flipped, and lasts as long as the note when the note's
    duration is not negative. *)
Lemma gui_note_clip_total sourceClip fuel duration :
  0 < src_duration sourceClip ->
  (loops sourceClip duration <= fuel)%nat ->
  exists c, Midisync.note_clip fuel sourceClip duration = Ok c /\
            is_filler c = false /\ is_flipped c = false /\
            (0 <= duration -> clip_duration sourceClip c == duration).
Proof.
  intros Hs Hfuel. destruct (Qlt_le_dec (src_duration sourceClip) duration) as [H|H].
  - destruct (gui_note_clip_bounces sourceClip fuel duration Hs H Hfuel)
      as (chunks & Hc & _ & Htot).
    exists (Concatenate chunks). repeat split; [assumption|].
    intros _. exact Htot.
  - exists (trimmed duration). split; [apply gui_note_clip_fits; lra|].
    repeat split. intros H0. unfold trimmed.
    rewrite clip_duration_subclip by assumption. reflexivity.
Qed.

(** ** The whole timeline *)

Lemma Forall_exists_Forall2 {A B : Type} (R : A -> B -> Prop) l :
  Forall (fun a => exists b, R a b) l -> exists bs, Forall2 R l bs.
Proof.
  induction 1 as [|a l [b Hb] _ [bs Hbs]].
  - exists []. constructor.
  - exists (b :: bs). now constructor.
Qed.

(** Every Ok result of the fit policy shows the source and is not flipped. *)
Lemma gui_note_clip_shape fuel sourceClip duration c :
  Midisync.note_clip fuel sourceClip duration = Ok c ->
  is_filler c = false /\ is_flipped c = false /\
  (is_trimmed c = false <-> src_duration sourceClip < duration).
Proof.
  unfold Midisync.note_clip.
  destruct (Py.lt (src_duration sourceClip) duration) eqn:E.
  - apply Py_lt_true in E.
    destruct (Midisync.bounce_loop fuel sourceClip [] duration true) as [clips| |];
      try discriminate.
    cbn [bind]. destruct clips; [discriminate|]. intros H. inversion H; subst.
    cbn. tauto.
  - apply Py_lt_false in E. unfold subclip.
    destruct (Py.gt 0 (clip_duration sourceClip Source)); [discriminate|].
    intros H. inversion H; subst. cbn. repeat split; [discriminate|]. lra.
Qed.

Lemma nogui_note_clip_shape sourceClip duration c :
  MidisyncNoGui.note_clip sourceClip duration = Ok c ->
  is_filler c = false /\ is_flipped c = false /\
  (is_trimmed c = false <-> src_duration sourceClip < duration).
Proof.
  unfold MidisyncNoGui.note_clip.
  destruct (Py.lt (src_duration sourceClip) duration) eqn:E.
  - apply Py_lt_true in E.
    destruct (MidisyncNoGui.numLoops sourceClip duration) as [n| |]; try discriminate.
    cbn [bind]. destruct (repeat Source (Z.to_nat n)) as [|c0 l]; [discriminate|].
    cbn [concatenate_videoclips bind]. unfold subclip.
    destruct (Py.gt 0 _); [discriminate|].
    intros H. inversion H; subst. cbn. tauto.
  - apply Py_lt_false in E. unfold subclip.
    destruct (Py.gt 0 (clip_duration sourceClip Source)); [discriminate|].
    intros H. inversion H; subst. cbn. repeat split; [discriminate|]. lra.
Qed.

Lemma cursor_after_last groups : forall currentPos d,
  groups <> [] ->
  cursor_after currentPos groups = ge_end (List.last groups d).
Proof.
  induction groups as [|event groups IH]; intros currentPos d Hne; [congruence|].
  destruct groups as [|event' groups]; [reflexivity|].
  change (cursor_after currentPos (event :: event' :: groups))
    with (cursor_after (ge_end event) (event' :: groups)).
  rewrite (IH (ge_end event) d) by discriminate. reflexivity.
Qed.

Lemma clip_duration_flip sourceClip event c :
  clip_duration sourceClip (flip_if_even event c) = clip_duration sourceClip c.
Proof. unfold flip_if_even. now destruct (_ =? _)%Z. Qed.

Lemma total_duration_gap sourceClip currentPos event :
  currentPos <= ge_start event ->
  total_duration sourceClip (gap sourceClip currentPos event) ==
  ge_start event - currentPos.
Proof.
  intros H. unfold gap. destruct (Py.gt (ge_start event) currentPos) eqn:E.
  - unfold total_duration, Qsum. cbn. lra.
  - apply Py_gt_false in E. unfold total_duration, Qsum. cbn. lra.
Qed.

Lemma timeline_total sourceClip : forall groups cs currentPos,
  non_overlapping currentPos groups = true ->
  Forall2 (fun event c => 0 <= content_duration event ->
                          clip_duration sourceClip c == content_duration event) groups cs ->
  total_duration sourceClip (timeline sourceClip currentPos groups cs) ==
  cursor_after currentPos groups - currentPos.
Proof.
  induction groups as [|event groups IH]; intros cs currentPos Hno Hcs.
  - unfold total_duration, Qsum, cursor_after. cbn. lra.
  - inversion Hcs as [|? c ? cs' Hc Hrest]; subst.
    cbn [non_overlapping] in Hno.
    apply andb_prop in Hno as [Hno Hno3]. apply andb_prop in Hno as [Hno1 Hno2].
    apply Qle_bool_iff in Hno1, Hno2.
    cbn [timeline]. rewrite total_duration_app, total_duration_cons.
    rewrite total_duration_gap by assumption.
    rewrite clip_duration_flip.
    rewrite Hc by (unfold content_duration; lra).
    rewrite (IH cs' (ge_end event)) by assumption.
    change (cursor_after currentPos (event :: groups))
      with (cursor_after (ge_end event) groups).
    unfold content_duration. lra.
Qed.

Lemma timeline_nonempty sourceClip currentPos event groups c cs :
  timeline sourceClip currentPos (event :: groups) (c :: cs) <> [].
Proof. cbn [timeline]. now destruct (gap sourceClip currentPos event). Qed.

Lemma fuel_needed_covers sourceClip groups event :
  In event groups ->
  (loops sourceClip (content_duration event) <= fuel_needed sourceClip groups)%nat.
Proof.
  intros Hin. unfold fuel_needed.
  assert (H : (list_max (map (fun e => loops sourceClip (content_duration e)) groups)
               <= list_max (map (fun e => loops sourceClip (content_duration e)) groups))%nat)
    by lia.
  apply list_max_le in H. rewrite List.Forall_forall in H. apply H.
  apply in_map_iff. now exists event.
Qed.

(** With a source of positive duration [midisync_nogui.py] builds a
    timeline for every list of groups. *)
Lemma nogui_build_total sourceClip groups :
  0 < src_duration sourceClip ->
  exists cs,
    Forall2 (made_for sourceClip (MidisyncNoGui.note_clip sourceClip)) groups cs /\
    MidisyncNoGui.build_timeline sourceClip groups =
      Ok (timeline sourceClip 0 groups cs).
Proof.
  intros Hs.
  destruct (Forall_exists_Forall2
              (made_for sourceClip (MidisyncNoGui.note_clip sourceClip)) groups)
    as (cs & Hcs).
  { apply List.Forall_forall. intros event _.
    destruct (nogui_note_clip_total sourceClip (content_duration event) Hs)
      as (c & H1 & H2 & H3 & H4).
    exists c. repeat split; try assumption. intros H0. now rewrite H4. }
  exists cs. split; [assumption|].
  rewrite nogui_build_timeline.
  rewrite (foldM_on_event_ok sourceClip _ groups cs).
  - reflexivity.
  - eapply List.Forall2_impl; [|exact Hcs]. now intros event c (H & _).
Qed.

(** So does [midisync.py], once the loop bound covers every note; a
    larger bound gives the same timeline. *)
Lemma gui_build_total sourceClip groups :
  0 < src_duration sourceClip ->
  exists cs,
    Forall2 (made_for sourceClip
               (Midisync.note_clip (fuel_needed sourceClip groups) sourceClip)) groups cs /\
    forall fuel, (fuel_needed sourceClip groups <= fuel)%nat ->
      Midisync.build_timeline fuel sourceClip groups =
        Ok (timeline sourceClip 0 groups cs).
Proof.
  intros Hs.
  destruct (Forall_exists_Forall2
              (made_for sourceClip
                 (Midisync.note_clip (fuel_needed sourceClip groups) sourceClip)) groups)
    as (cs & Hcs).
  { apply List.Forall_forall. intros event Hin.
    destruct (gui_note_clip_total sourceClip (fuel_needed sourceClip groups)
                (content_duration event) Hs (fuel_needed_covers _ _ _ Hin))
      as (c & H1 & H2 & H3 & H4).
    exists c. repeat split; assumption. }
  exists cs. split; [assumption|].
  intros fuel Hfuel. rewrite gui_build_timeline.
  rewrite (foldM_on_event_ok sourceClip _ groups cs).
  - reflexivity.
  - eapply List.Forall2_impl; [|exact Hcs]. intros event c (H & _).
    now apply (gui_note_clip_more sourceClip (fuel_needed sourceClip groups)).
Qed.

(** ** Coverage *)

(** The claim C1 fails on overlapping groups: both programs emit clips of
    5 and 1 seconds, 6 seconds in all, while the last group ends at 2. *)
Lemma overlapping_groups_overrun :
  let sourceClip := mkSource 10 640 480 in
  let clips := [ Subclip Source 5; FlipLR (Subclip Source 1) ] in
  Midisync.extract overlapping_stream (1 # 10) = overlapping_groups /\
  MidisyncNoGui.build_timeline sourceClip overlapping_groups = Ok clips /\
  Midisync.build_timeline 0 sourceClip overlapping_groups = Ok clips /\
  total_duration sourceClip clips == 6 /\
  ~ total_duration sourceClip clips ==
    ge_end (List.last overlapping_groups (mkGroup 0 0 0)).
Proof.
  cbv zeta. repeat split; try reflexivity.
  intros H. vm_compute in H. discriminate H.
Qed.

(** C1, amended.  For a source of positive duration and a non-empty
    list of groups in which no group starts before the end of the one
    before it (or before time 0) and none ends before it starts, both
    programs build a timeline whose durations add up to the end of the
    last group; [midisync.py] does so for every loop bound that covers
    the longest note. *)
Theorem timeline_covers_last_end :
  forall sourceClip groups d,
    0 < src_duration sourceClip ->
    groups <> [] ->
    non_overlapping 0 groups = true ->
    (exists clips,
        MidisyncNoGui.build_timeline sourceClip groups = Ok clips /\
        total_duration sourceClip clips == ge_end (List.last groups d)) /\
    (exists clips,
        (forall fuel, (fuel_needed sourceClip groups <= fuel)%nat ->
            Midisync.build_timeline fuel sourceClip groups = Ok clips) /\
        total_duration sourceClip clips == ge_end (List.last groups d)).
Proof.
  intros sourceClip groups d Hs Hne Hno. split.
  - destruct (nogui_build_total sourceClip groups Hs) as (cs & Hcs & Hbuild).
    exists (timeline sourceClip 0 groups cs). split; [assumption|].
    rewrite timeline_total; [| assumption |].
    + rewrite (cursor_after_last groups 0 d Hne). lra.
    + eapply List.Forall2_impl; [|exact Hcs]. now intros event c (_ & _ & _ & H).
  - destruct (gui_build_total sourceClip groups Hs) as (cs & Hcs & Hbuild).
    exists (timeline sourceClip 0 groups cs). split; [assumption|].
    rewrite timeline_total; [| assumption |].
    + rewrite (cursor_after_last groups 0 d Hne). lra.
    + eapply List.Forall2_impl; [|exact Hcs]. now intros event c (_ & _ & _ & H).
Qed.

Lemma timeline_covers_last_end_witness :
  let sourceClip := mkSource 2 640 480 in
  let groups := [ mkGroup 1 (1 # 2) 1; mkGroup 2 (3 # 2) 7 ] in
  (exists clips,
      MidisyncNoGui.build_timeline sourceClip groups = Ok clips /\
      total_duration sourceClip clips == 7) /\
  (exists clips,
      (forall fuel, (fuel_needed sourceClip groups <= fuel)%nat ->
          Midisync.build_timeline fuel sourceClip groups = Ok clips) /\
      total_duration sourceClip clips == 7).
Proof.
  intros sourceClip groups.
  apply (timeline_covers_last_end sourceClip groups (mkGroup 0 0 0)).
  - cbn. lra.
  - discriminate.
  - reflexivity.
Defined.

(** ** Notes without duration *)

(** The claim C2 fails on a group that starts and ends at 1: after the
    filler both programs emit a clip of the source, of duration 0. *)
Lemma zero_length_note_is_emitted :
  let sourceClip := mkSource 2 640 480 in
  let event := mkGroup 1 1 1 in
  let clips := [ ColorClip (640, 480)%Z (0, 255, 0)%Z 1; Subclip Source 0 ] in
  Midisync.extract [ mkMsg note_on 60 64 1; mkMsg note_off 60 0 0 ] (1 # 10) = [event] /\
  content_duration event <= 0 /\
  MidisyncNoGui.build_timeline sourceClip [event] = Ok clips /\
  Midisync.build_timeline 0 sourceClip [event] = Ok clips /\
  List.filter is_content clips = [ Subclip Source 0 ] /\
  clip_duration sourceClip (Subclip Source 0) == 0.
Proof.
  cbv zeta. split; [reflexivity|]. split; [unfold content_duration; cbn; lra|].
  repeat split; reflexivity.
Qed.

(** C2, amended.  For a group whose content duration is 0 or less and a
    source whose duration is not negative, both programs still emit a
    content clip for the group: after the filler, if the group starts
    after the cursor, comes [sourceClip.subclip(0, duration)], flipped
    when the group's number is even; the cursor moves to the group's
    end, and neither looping nor bouncing takes place.  When the
    content duration is 0 the emitted clip has duration 0. *)
Theorem empty_note_still_emitted :
  forall sourceClip fuel videoClips currentPos event,
    content_duration event <= 0 ->
    0 <= src_duration sourceClip ->
    let emitted := flip_if_even event (trimmed (content_duration event)) in
    let after := (videoClips ++ gap sourceClip currentPos event ++ [emitted],
                  ge_end event) in
    MidisyncNoGui.on_event sourceClip (videoClips, currentPos) event = Ok after /\
    Midisync.on_event fuel sourceClip (videoClips, currentPos) event = Ok after /\
    is_content emitted = true /\
    (0 <= content_duration event -> clip_duration sourceClip emitted == 0).
Proof.
  intros sourceClip fuel videoClips currentPos event Hd Hs emitted after.
  repeat split.
  - rewrite nogui_on_event. unfold on_event_with.
    rewrite nogui_note_clip_fits by lra. reflexivity.
  - rewrite gui_on_event. unfold on_event_with.
    rewrite gui_note_clip_fits by lra. reflexivity.
  - unfold emitted, flip_if_even. now destruct (_ =? _)%Z.
  - intros H0. unfold emitted. rewrite clip_duration_flip. unfold trimmed.
    rewrite clip_duration_subclip by assumption. lra.
Qed.

Lemma empty_note_still_emitted_witness :
  let sourceClip := mkSource 2 640 480 in
  let event := mkGroup 2 3 3 in
  let emitted := flip_if_even event (trimmed (content_duration event)) in
  let after := ([] ++ gap sourceClip 1 event ++ [emitted], ge_end event) in
  MidisyncNoGui.on_event sourceClip ([], 1) event = Ok after /\
  Midisync.on_event 0 sourceClip ([], 1) event = Ok after /\
  is_content emitted = true /\
  (0 <= content_duration event -> clip_duration sourceClip emitted == 0).
Proof.
  intros sourceClip event.
  apply (empty_note_still_emitted sourceClip 0%nat [] 1 event); decide_Q.
Defined.

(** ** Fit policy *)

(** C5.  For a group of positive content duration [d]: when the source
    lasts at least [d], both programs emit, after the filler if any,
    exactly one content clip, [sourceClip.subclip(0, d)] (flipped when
    the group's number is even), whose duration is [d]; and whenever a
    note clip is made, it is something other than that trimmed clip
    exactly when the source is shorter than [d]. *)
Theorem fit_policy_trims :
  forall sourceClip fuel videoClips currentPos event,
    let d := content_duration event in
    0 < d ->
    (d <= src_duration sourceClip ->
     let emitted := flip_if_even event (trimmed d) in
     let after := (videoClips ++ gap sourceClip currentPos event ++ [emitted],
                   ge_end event) in
     MidisyncNoGui.on_event sourceClip (videoClips, currentPos) event = Ok after /\
     Midisync.on_event fuel sourceClip (videoClips, currentPos) event = Ok after /\
     clip_duration sourceClip emitted = d) /\
    (forall c, MidisyncNoGui.note_clip sourceClip d = Ok c ->
               (is_trimmed c = false <-> src_duration sourceClip < d)) /\
    (forall c, Midisync.note_clip fuel sourceClip d = Ok c ->
               (is_trimmed c = false <-> src_duration sourceClip < d)).
Proof.
  intros sourceClip fuel videoClips currentPos event d Hd. repeat split.
  - rewrite nogui_on_event. unfold on_event_with. fold d.
    rewrite nogui_note_clip_fits by lra. reflexivity.
  - rewrite gui_on_event. unfold on_event_with. fold d.
    rewrite gui_note_clip_fits by lra. reflexivity.
  - rewrite clip_duration_flip. unfold trimmed.
    apply clip_duration_subclip. lra.
  - now apply nogui_note_clip_shape.
  - now apply nogui_note_clip_shape.
  - now apply (gui_note_clip_shape fuel).
  - now apply (gui_note_clip_shape fuel).
Qed.

Lemma fit_policy_trims_witness :
  let sourceClip := mkSource 5 640 480 in
  let event := mkGroup 1 0 3 in
  let emitted := flip_if_even event (trimmed 3) in
  MidisyncNoGui.on_event sourceClip ([], 0) event = Ok ([emitted], 3) /\
  Midisync.on_event 0 sourceClip ([], 0) event = Ok ([emitted], 3) /\
  clip_duration sourceClip emitted = 3.
Proof.
  intros sourceClip event emitted.
  destruct (fit_policy_trims sourceClip 0%nat [] 0 event) as (A & _).
  - decide_Q.
  - destruct A as (A1 & A2 & A3).
    + decide_Q.
    + split; [exact A1 | split; [exact A2 | exact A3]].
Defined.

(** ** Flips *)

Lemma build_flips sourceClip note_clip groups clips :
  (forall duration c, note_clip duration = Ok c ->
                      is_filler c = false /\ is_flipped c = false) ->
  bind (foldM (on_event_with sourceClip note_clip) groups ([], 0))
       (fun st => Ok (fst st)) = Ok clips ->
  map is_flipped (List.filter is_content clips) =
  map (fun event => Z.even (noteNum event)) groups.
Proof.
  intros Hshape H.
  destruct (foldM (on_event_with sourceClip note_clip) groups ([], 0)) as [st| |] eqn:E;
    try discriminate.
  cbn [bind] in H. inversion H; subst clips.
  apply foldM_on_event_inv in E. destruct E as (cs & Hcs & ->).
  cbn [fst app]. apply timeline_flips.
  - clear -Hcs Hshape. induction Hcs; constructor; eauto.
  - symmetry. eapply Forall2_length. exact Hcs.
Qed.

(** C6.  In the timeline either program builds, the content clips, in
    order, are flipped exactly where the corresponding group's own
    number is even, whatever fillers stand between them, and no filler
    is flipped; with a source of positive duration such a timeline is
    built for every list of groups. *)
Theorem flip_follows_group_number :
  (forall sourceClip groups clips,
      (MidisyncNoGui.build_timeline sourceClip groups = Ok clips \/
       exists fuel, Midisync.build_timeline fuel sourceClip groups = Ok clips) ->
      map is_flipped (List.filter is_content clips) =
        map (fun event => Z.even (noteNum event)) groups /\
      Forall (fun c => is_filler c = true -> is_flipped c = false) clips) /\
  (forall sourceClip groups,
      0 < src_duration sourceClip ->
      (exists clips, MidisyncNoGui.build_timeline sourceClip groups = Ok clips) /\
      (exists clips, forall fuel, (fuel_needed sourceClip groups <= fuel)%nat ->
                       Midisync.build_timeline fuel sourceClip groups = Ok clips)).
Proof.
  split.
  - intros sourceClip groups clips H. split.
    + destruct H as [H|[fuel H]].
      * rewrite nogui_build_timeline in H.
        apply (build_flips _ _ _ _ (fun d c Hc =>
                 conj (proj1 (nogui_note_clip_shape sourceClip d c Hc))
                      (proj1 (proj2 (nogui_note_clip_shape sourceClip d c Hc)))) H).
      * rewrite gui_build_timeline in H.
        apply (build_flips _ _ _ _ (fun d c Hc =>
                 conj (proj1 (gui_note_clip_shape fuel sourceClip d c Hc))
                      (proj1 (proj2 (gui_note_clip_shape fuel sourceClip d c Hc)))) H).
    + apply List.Forall_forall. intros c _. apply filler_not_flipped.
  - intros sourceClip groups Hs. split.
    + destruct (nogui_build_total sourceClip groups Hs) as (cs & _ & H). eauto.
    + destruct (gui_build_total sourceClip groups Hs) as (cs & _ & H). eauto.
Qed.

Lemma flip_follows_group_number_witness :
  let sourceClip := mkSource 2 640 480 in
  let groups := [ mkGroup 1 1 2; mkGroup 2 2 7; mkGroup 4 8 9; mkGroup 7 9 10 ] in
  let clips :=
    [ ColorClip (640, 480)%Z (0, 255, 0)%Z 1; Subclip Source 1;
      FlipLR (Subclip (Concatenate [Source; Source; Source]) 5);
      ColorClip (640, 480)%Z (0, 255, 0)%Z 1; FlipLR (Subclip Source 1);
      Subclip Source 1 ] in
  (map is_flipped (List.filter is_content clips) = [false; true; true; false] /\
   Forall (fun c => is_filler c = true -> is_flipped c = false) clips) /\
  (exists clips', MidisyncNoGui.build_timeline sourceClip groups = Ok clips').
Proof.
  intros sourceClip groups clips.
  destruct flip_follows_group_number as (A & B). split.
  - apply (A sourceClip groups clips). left. reflexivity.
  - apply (B sourceClip groups). decide_Q.
Defined.

(** ** Configuration *)

(** The claim C3 fails.  Called with chord threshold -1 (and frame rate
    30) on a file with one note, [midisync_nogui.py] is not stopped: it
    extracts the note, builds the timeline and writes the video.  Called
    with frame rate 0 it is not stopped before processing either: the
    note is extracted and the timeline built and reported, and only the
    call of the encoder raises [ZeroDivisionError]. *)
Lemma nonpositive_configuration_runs :
  let mid := [ mkMsg note_on 60 64 0; mkMsg note_off 60 0 1 ] in
  let sourceClip := mkSource 2 640 480 in
  let w := {| midi_files := {[ "in.mid" := mid ]};
              video_files := {[ "clip.mp4" := sourceClip ]};
              stdout := []; written := [] |} in
  let run := MidisyncNoGui.main "in.mid" "clip.mp4" "out.mp4" (FpsThreshold 30 (-1)) w in
  let run0 := MidisyncNoGui.main "in.mid" "clip.mp4" "out.mp4" (FpsThreshold 0 (1 # 10)) w in
  (fst run = Ok tt /\
   written (snd run) = [ ("out.mp4", Concatenate [ Subclip Source 1 ], 30%Z) ] /\
   stdout (snd run) =
     [ Blank; PathLine "MIDI file path : " "in.mid"; ExtractedLine 1; GroupedLine 1;
       Blank; Text "Note #, Start, End"; RowLine 1 0 1; SegmentsLine 1; Blank; Blank;
       Text "Make sure when you make the visuals:";
       Text "- Crop the video to the proper size";
       Text "- Key out the greenscreen"; Blank ]) /\
  (fst run0 = Raise ZeroDivisionError /\
   written (snd run0) = [] /\
   stdout (snd run0) =
     [ Blank; PathLine "MIDI file path : " "in.mid"; ExtractedLine 1; GroupedLine 1;
       Blank; Text "Note #, Start, End"; RowLine 1 0 1; SegmentsLine 1; Blank ]).
Proof. cbv zeta. repeat split; vm_compute; reflexivity. Qed.

(** C3, amended.  [midisync_nogui.py] checks no configuration value
    before it processes.  For every chord threshold and every frame
    rate, positive or not: the run first extracts the groups of a
    readable MIDI file with the given threshold and reports them,
    whatever the source clip is; when the extraction is not empty and
    the source clip is readable with a positive duration, the timeline
    of the extracted groups is built and the number of its clips
    reported; then, with a positive frame rate, the video is written at
    that frame rate and the run ends normally, and with frame rate 0 the
    run ends in [ZeroDivisionError] at the call of the encoder, after
    extraction and building, and nothing is written. *)
Theorem configuration_is_not_checked :
  forall w midiPath videoClipPath outputPath chordThreshold fps mid,
    midi_files w !! midiPath = Some mid ->
    let run := MidisyncNoGui.createVideo midiPath videoClipPath outputPath
                 chordThreshold fps w in
    let groups := MidisyncNoGui.extract mid chordThreshold in
    let report := stdout w ++
                  extraction_log "MIDI file path : " midiPath (sorted_notes mid)
                    (final_sweep mid chordThreshold) in
    (exists more, stdout (snd run) = report ++ more) /\
    (forall sourceClip,
        video_files w !! videoClipPath = Some sourceClip ->
        0 < src_duration sourceClip ->
        groups <> [] ->
        exists clips,
          MidisyncNoGui.build_timeline sourceClip groups = Ok clips /\
          (exists more,
              stdout (snd run) = report ++ SegmentsLine (length clips) :: Blank :: more) /\
          ((0 < fps)%Z ->
           fst run = Ok tt /\
           written (snd run) = written w ++ [ (outputPath, Concatenate clips, fps) ]) /\
          (fps = 0%Z ->
           fst run = Raise ZeroDivisionError /\
           written (snd run) = written w /\
           stdout (snd run) = report ++ [ SegmentsLine (length clips); Blank ])).
Proof.
  intros w midiPath videoClipPath outputPath chordThreshold fps mid Hmid run groups report.
  assert (Hrun : run =
    bindIO (fun w0 => (Ok groups,
              with_stdout w0 (stdout w0 ++ extraction_log "MIDI file path : " midiPath
                                (sorted_notes mid) (final_sweep mid chordThreshold))))
      (fun noteEvents =>
        match noteEvents with
        | [] => print (Text "No notes found :(")
        | _ =>
          (let! sourceClip := VideoFileClip videoClipPath in
           let! videoClips := lift (MidisyncNoGui.build_timeline sourceClip noteEvents) in
           print (SegmentsLine (length videoClips)) >>
           let! finalVideo := lift (concatenate_videoclips videoClips) in
           print Blank >>
           write_videofile finalVideo outputPath fps >>
           print Blank >>
           print (Text "Make sure when you make the visuals:") >>
           print (Text "- Crop the video to the proper size") >>
           print (Text "- Key out the greenscreen") >>
           print Blank)%io
        end) w).
  { unfold run, MidisyncNoGui.createVideo, bindIO at 1.
    rewrite nogui_extractNotes_spec, Hmid. reflexivity. }
  unfold report. split.
  - rewrite Hrun. unfold bindIO at 1. cbv beta iota.
    destruct groups as [|event groups'] eqn:Eg.
    + exists [Text "No notes found :("]. cbn. now rewrite <- app_assoc.
    + unfold bindIO at 1, VideoFileClip. cbn [video_files with_stdout].
      destruct (video_files w !! videoClipPath) as [sourceClip|];
        [|exists []; cbn; now rewrite app_nil_r].
      unfold bindIO at 1, lift.
      destruct (MidisyncNoGui.build_timeline sourceClip (event :: groups'))
        as [videoClips| |]; [|exists []; cbn; now rewrite app_nil_r ..].
      unfold bindIO at 1, print at 1. unfold bindIO at 1, lift.
      cbn [stdout midi_files video_files written with_stdout].
      destruct (concatenate_videoclips videoClips) as [finalVideo| |];
        [|eexists; cbn; rewrite <- !app_assoc; reflexivity ..].
      unfold bindIO, print, write_videofile.
      cbn [stdout midi_files video_files written].
      destruct (fps =? 0)%Z; [eexists; cbn; rewrite <- !app_assoc; reflexivity|].
      destruct (fps <? 0)%Z; eexists; cbn; rewrite <- !app_assoc; reflexivity.
  - intros sourceClip Hvideo Hs Hne.
    destruct (nogui_build_total sourceClip groups Hs) as (cs & Hcs & Hbuild).
    exists (timeline sourceClip 0 groups cs). split; [assumption|].
    rewrite Hrun. clear Hrun.
    destruct groups as [|event groups'] eqn:Eg; [congruence|].
    inversion Hcs as [|? c ? cs' Hc Hrest]; subst.
    pose proof (timeline_nonempty sourceClip 0 event groups' c cs') as Hnonempty.
    unfold bindIO, VideoFileClip, lift, print, write_videofile.
    cbn [video_files with_stdout stdout midi_files written].
    rewrite Hvideo. cbv beta iota. rewrite Hbuild. cbv beta iota.
    destruct (timeline sourceClip 0 (event :: groups') (c :: cs')) as [|c0 l];
      [congruence|].
    cbn [concatenate_videoclips]. cbv beta iota.
    destruct (Z.eqb_spec fps 0) as [Hz|Hz].
    + unfold with_stdout. cbn [fst snd written stdout]. split; [|split].
      * eexists. rewrite <- !app_assoc. cbn [app]. reflexivity.
      * intros Hpos. lia.
      * intros _. split; [reflexivity|]. split; [reflexivity|].
        rewrite <- !app_assoc. reflexivity.
    + destruct (Z.ltb_spec fps 0) as [Hneg|Hpos].
      * unfold with_stdout. cbn [fst snd written stdout]. split; [|split].
        -- eexists. rewrite <- !app_assoc. cbn [app]. reflexivity.
        -- intros Hp. lia.
        -- intros H0. lia.
      * unfold with_stdout. cbn [fst snd written stdout]. split; [|split].
        -- eexists. rewrite <- !app_assoc. cbn [app]. reflexivity.
        -- intros _. split; reflexivity.
        -- intros H0. lia.
Qed.

Lemma configuration_is_not_checked_witness :
  let mid := [ mkMsg note_on 60 64 0; mkMsg note_off 60 0 1 ] in
  let sourceClip := mkSource 2 640 480 in
  let w := {| midi_files := {[ "in.mid" := mid ]};
              video_files := {[ "clip.mp4" := sourceClip ]};
              stdout := []; written := [] |} in
  let run := MidisyncNoGui.createVideo "in.mid" "clip.mp4" "out.mp4" (-1) 30 w in
  let run0 := MidisyncNoGui.createVideo "in.mid" "clip.mp4" "out.mp4" (-1) 0 w in
  (exists clips,
      MidisyncNoGui.build_timeline sourceClip (MidisyncNoGui.extract mid (-1)) = Ok clips /\
      fst run = Ok tt /\
      written (snd run) = written w ++ [ ("out.mp4", Concatenate clips, 30%Z) ]) /\
  (fst run0 = Raise ZeroDivisionError /\ written (snd run0) = written w).
Proof.
  intros mid sourceClip w run run0. split.
  - destruct (configuration_is_not_checked w "in.mid" "clip.mp4" "out.mp4" (-1) 30%Z mid)
      as (_ & B); [reflexivity|].
    destruct (B sourceClip) as (clips & Hbuild & _ & Hpos & _);
      [reflexivity|decide_Q|discriminate|].
    exists clips. split; [exact Hbuild|]. apply Hpos. lia.
  - destruct (configuration_is_not_checked w "in.mid" "clip.mp4" "out.mp4" (-1) 0%Z mid)
      as (_ & B); [reflexivity|].
    destruct (B sourceClip) as (clips & _ & _ & _ & Hzero);
      [reflexivity|decide_Q|discriminate|].
    destruct (Hzero eq_refl) as (H1 & H2 & _). split; [exact H1|exact H2].
Defined.

(** * The model of [list.sort] *)

Lemma insert_by_start_perm e l : Permutation (insert_by_start e l) (e :: l).
Proof.
  induction l as [|x l IH]; cbn; [reflexivity|].
  destruct (Py.lt (ne_start e) (ne_start x)); [reflexivity|].
  rewrite IH. apply perm_swap.
Qed.

Lemma sort_by_start_perm_acc l : forall acc,
  Permutation (fold_left (fun acc e => insert_by_start e acc) l acc) (acc ++ l).
Proof.
  induction l as [|e l IH]; intros acc; cbn.
  - now rewrite app_nil_r.
  - rewrite IH, insert_by_start_perm. cbn [app]. apply Permutation_middle.
Qed.

(** Sorting keeps the note events, each as often as it occurs. *)
Lemma sort_by_start_perm l : Permutation (sort_by_start l) l.
Proof. apply (sort_by_start_perm_acc l []). Qed.

Lemma insert_by_start_sorted e l :
  StronglySorted by_start l -> StronglySorted by_start (insert_by_start e l).
Proof.
  induction 1 as [|x l Hsorted IH Hx]; cbn.
  - repeat constructor.
  - destruct (Py.lt (ne_start e) (ne_start x)) eqn:E.
    + apply Py_lt_true in E. constructor; [now constructor|].
      constructor; [unfold by_start; lra|].
      eapply List.Forall_impl; [|exact Hx]. unfold by_start. intros y Hy. lra.
    + apply Py_lt_false in E. constructor; [assumption|].
      eapply Permutation_Forall; [symmetry; apply insert_by_start_perm|].
      constructor; assumption.
Qed.

(** The sorted list is in non-decreasing order of start time. *)
Lemma sort_by_start_sorted l : StronglySorted by_start (sort_by_start l).
Proof.
  unfold sort_by_start.
  assert (H : forall acc, StronglySorted by_start acc ->
            StronglySorted by_start (fold_left (fun acc e => insert_by_start e acc) l acc)).
  { induction l as [|e l IH]; intros acc Hacc; cbn; [assumption|].
    apply IH. now apply insert_by_start_sorted. }
  apply H. constructor.
Qed.

Lemma insert_by_start_last e l :
  Forall (fun x => by_start x e) l -> insert_by_start e l = l ++ [e].
Proof.
  induction 1 as [|x l Hx _ IH]; cbn; [reflexivity|].
  apply Py_lt_false in Hx. now rewrite Hx, IH.
Qed.

(** A list already in order is left as it is: events with equal starts
    keep their order. *)
Lemma sort_by_start_sorted_id l :
  StronglySorted by_start l -> sort_by_start l = l.
Proof.
  intros Hl. unfold sort_by_start.
  assert (H : forall l acc,
            StronglySorted by_start (acc ++ l) ->
            fold_left (fun acc e => insert_by_start e acc) l acc = acc ++ l).
  { clear. induction l as [|e l IH]; intros acc Hs; cbn.
    - now rewrite app_nil_r.
    - rewrite insert_by_start_last.
      + rewrite IH; rewrite <- app_assoc; [reflexivity|exact Hs].
      + clear IH. induction acc as [|a acc IHacc]; [constructor|].
        cbn in Hs. inversion Hs as [|? ? Hs' Ha]; subst.
        constructor; [|now apply IHacc].
        rewrite List.Forall_forall in Ha. apply Ha.
        apply in_or_app. right. now left. }
  apply (H l []). exact Hl.
Qed.

(** The reports of the two programs differ in the label of the path
    line, and in nothing else. *)
Remark reports_differ_in_label :
  forall filePath chordThreshold w mid,
    midi_files w !! filePath = Some mid ->
    stdout (snd (Midisync.extractNotes filePath chordThreshold w)) =
      stdout w ++ extraction_log "MIDI file path: " filePath (sorted_notes mid)
                    (final_sweep mid chordThreshold) /\
    stdout (snd (MidisyncNoGui.extractNotes filePath chordThreshold w)) =
      stdout w ++ extraction_log "MIDI file path : " filePath (sorted_notes mid)
                    (final_sweep mid chordThreshold).
Proof.
  intros filePath chordThreshold w mid H.
  rewrite gui_extractNotes_spec, nogui_extractNotes_spec, H. split; reflexivity.
Qed.

(** * Further properties of the extractor *)

(** ** The clock and the intervals *)

Lemma on_msg_clock st msg :
  currentTime (Midisync.on_msg st msg) = currentTime st + msg_time msg.
Proof.
  unfold Midisync.on_msg.
  destruct (is_note_on msg && (0 <? msg_velocity msg)%Z); [reflexivity|].
  destruct (is_note_off msg || _); [|reflexivity].
  now destruct (activeNotes st !! msg_note msg).
Qed.

(** The clock after a run is the clock before it plus the delta times of
    all messages, whatever their types. *)
Lemma clock_is_sum_of_deltas mid st :
  currentTime (Midisync.process_messages mid st) ==
  currentTime st + Qsum (map msg_time mid).
Proof.
  revert st. induction mid as [|msg mid IH]; intros st.
  - unfold Qsum. cbn. lra.
  - rewrite process_messages_cons, IH, on_msg_clock.
    unfold Qsum. cbn [map fold_right]. lra.
Qed.

Lemma clock_bounds_step st msg :
  0 <= msg_time msg -> clock_bounds st -> clock_bounds (Midisync.on_msg st msg).
Proof.
  intros Ht (Hc & Ha & He). unfold clock_bounds.
  destruct (is_begin msg) eqn:Hb.
  - rewrite on_msg_begin by assumption. cbn. split; [lra|]. split; [|assumption].
    intros p t Hlk. destruct (decide (p = msg_note msg)) as [->|Hp].
    + rewrite lookup_insert_eq in Hlk. inversion Hlk; subst. lra.
    + rewrite lookup_insert_ne in Hlk by congruence.
      destruct (Ha p t Hlk). lra.
  - destruct (is_end msg) eqn:Hend.
    + rewrite on_msg_end by assumption.
      destruct (activeNotes st !! msg_note msg) as [startTime|] eqn:Hlk.
      * destruct (Ha _ _ Hlk) as [H0 H1]. cbn. split; [lra|]. split.
        -- intros p t Hp.
           assert (Hp' : activeNotes st !! p = Some t).
           { destruct (decide (p = msg_note msg)) as [->|Hne].
             - now rewrite lookup_delete_eq in Hp.
             - now rewrite lookup_delete_ne in Hp by congruence. }
           destruct (Ha p t Hp'). lra.
        -- apply Forall_app. split; [assumption|].
           constructor; [|constructor]. cbn. lra.
      * unfold tick. cbn. split; [lra|]. split; [|assumption].
        intros p t Hp. destruct (Ha p t Hp). lra.
    + rewrite on_msg_other by assumption. unfold tick. cbn.
      split; [lra|]. split; [|assumption].
      intros p t Hp. destruct (Ha p t Hp). lra.
Qed.

Lemma clock_bounds_run mid : forall st,
  Forall (fun msg => 0 <= msg_time msg) mid ->
  clock_bounds st -> clock_bounds (Midisync.process_messages mid st).
Proof.
  induction mid as [|msg mid IH]; intros st Hmid Hst; [assumption|].
  inversion Hmid; subst. rewrite process_messages_cons.
  apply IH; [assumption|]. now apply clock_bounds_step.
Qed.

Lemma clock_bounds_init : clock_bounds extract_init.
Proof.
  unfold clock_bounds, extract_init. cbn. split; [lra|]. split; [|constructor].
  intros p t H. now rewrite lookup_empty in H.
Qed.

(** ** Groups come from notes *)

Lemma on_note_cases chordThreshold st event :
  Midisync.on_note chordThreshold st event = st /\
    Midisync.starts_group chordThreshold (lastStartTime st) event = false \/
  Midisync.on_note chordThreshold st event =
    {| sw_noteNum := sw_noteNum st + 1;
       lastStartTime := Some (ne_start event);
       groupedEvents := groupedEvents st ++
                          [ {| noteNum := sw_noteNum st + 1;
                               ge_start := ne_start event;
                               ge_end := ne_end event |} ] |} /\
    Midisync.starts_group chordThreshold (lastStartTime st) event = true.
Proof.
  destruct (Midisync.starts_group chordThreshold (lastStartTime st) event) eqn:E.
  - right. split; [now apply on_note_new|reflexivity].
  - left. split; [now apply on_note_absorbed|reflexivity].
Qed.

Lemma sweep_cons chordThreshold event events st :
  Midisync.sweep chordThreshold (event :: events) st =
  Midisync.sweep chordThreshold events (Midisync.on_note chordThreshold st event).
Proof. reflexivity. Qed.

(** The sweep only appends groups, and the appended groups carry, in
    order, the times of some of the notes swept. *)
Lemma sweep_appends chordThreshold events : forall st,
  exists new,
    groupedEvents (Midisync.sweep chordThreshold events st) = groupedEvents st ++ new /\
    sublist (map group_times new) (map note_times events).
Proof.
  induction events as [|event events IH]; intros st.
  - exists []. split; [cbn; now rewrite app_nil_r|constructor].
  - rewrite sweep_cons.
    destruct (IH (Midisync.on_note chordThreshold st event)) as (new & Hnew & Hsub).
    destruct (on_note_cases chordThreshold st event) as [[Heq _]|[Heq _]];
      rewrite Heq in Hnew |- *.
    + exists new. split; [assumption|]. cbn [map]. now apply sublist_cons.
    + cbn [groupedEvents] in Hnew. rewrite <- app_assoc in Hnew.
      eexists. split; [exact Hnew|]. cbn [map app]. now apply sublist_skip.
Qed.

(** ** Numbering and spacing of the groups *)

Lemma starts_apart_snoc chordThreshold groups g :
  starts_apart chordThreshold groups ->
  (forall g0, last groups = Some g0 -> chordThreshold < ge_start g - ge_start g0) ->
  starts_apart chordThreshold (groups ++ [g]).
Proof.
  induction groups as [|g1 groups IH]; intros Hap Hlast; [exact I|].
  destruct groups as [|g2 groups].
  - cbn. split; [|exact I]. now apply Hlast.
  - destruct Hap as [H12 Hap]. cbn [app starts_apart]. split; [assumption|].
    apply IH; [assumption|]. intros g0 Hg0. apply Hlast. exact Hg0.
Qed.

Lemma sweep_bounds_step chordThreshold st event :
  sweep_bounds chordThreshold st ->
  sweep_bounds chordThreshold (Midisync.on_note chordThreshold st event).
Proof.
  intros (Hn & Hnums & Hlast & Hap).
  destruct (on_note_cases chordThreshold st event) as [[Heq _]|[Heq Hs]]; rewrite Heq.
  - repeat split; assumption.
  - unfold sweep_bounds. cbn [sw_noteNum lastStartTime groupedEvents].
    rewrite length_app. cbn [length]. repeat split.
    + lia.
    + rewrite map_app, Nat.add_1_r, seq_S, map_app, <- Hnums. cbn [map].
      f_equal. rewrite Hn. cbn [noteNum].
      apply (f_equal (fun x => [x])). lia.
    + now rewrite last_snoc.
    + apply starts_apart_snoc; [assumption|].
      intros g0 Hg0. rewrite Hg0 in Hlast. cbn in Hlast. rewrite Hlast in Hs.
      cbn in Hs. now apply Py_gt_true in Hs.
Qed.

Lemma sweep_bounds_run chordThreshold events : forall st,
  sweep_bounds chordThreshold st ->
  sweep_bounds chordThreshold (Midisync.sweep chordThreshold events st).
Proof.
  induction events as [|event events IH]; intros st H; [assumption|].
  rewrite sweep_cons. apply IH. now apply sweep_bounds_step.
Qed.

Lemma sweep_bounds_init chordThreshold : sweep_bounds chordThreshold sweep_init.
Proof. repeat split. Qed.

Lemma sublist_Forall_times (P : Q * Q -> Prop) groups events :
  sublist (map group_times groups) (map note_times events) ->
  Forall (fun e => P (note_times e)) events ->
  Forall (fun g => P (group_times g)) groups.
Proof.
  intros Hsub Hall.
  assert (H : forall l1 l2, sublist l1 l2 -> Forall P l2 -> Forall P l1).
  { clear. induction 1 as [|x l1 l2 _ IH|x l1 l2 _ IH]; intros H; [constructor| |].
    - inversion H; subst. constructor; auto.
    - inversion H; subst. auto. }
  apply (proj1 (List.Forall_map group_times P groups)).
  apply (H _ _ Hsub). now apply List.Forall_map.
Qed.

Lemma extract_from_notes mid chordThreshold :
  sublist (map group_times (Midisync.extract mid chordThreshold))
          (map note_times (sorted_notes mid)).
Proof.
  unfold Midisync.extract, Midisync.group_notes.
  destruct (sweep_appends chordThreshold (sorted_notes mid) sweep_init)
    as (new & Hnew & Hsub).
  fold (sorted_notes mid). rewrite Hnew. exact Hsub.
Qed.

(** X1.  When no delta time in the file is negative, every group the
    extractor returns starts at or after time 0 and ends at or after its
    start, in both programs. *)
Theorem extracted_intervals_ordered :
  forall mid chordThreshold,
    Forall (fun msg => 0 <= msg_time msg) mid ->
    Forall (fun g => 0 <= ge_start g /\ ge_start g <= ge_end g)
           (Midisync.extract mid chordThreshold) /\
    Forall (fun g => 0 <= ge_start g /\ ge_start g <= ge_end g)
           (MidisyncNoGui.extract mid chordThreshold).
Proof.
  intros mid chordThreshold Hmid.
  assert (H : Forall (fun g => 0 <= ge_start g /\ ge_start g <= ge_end g)
                     (Midisync.extract mid chordThreshold)).
  { apply (sublist_Forall_times (fun t => 0 <= fst t /\ fst t <= snd t) _
             (sorted_notes mid) (extract_from_notes mid chordThreshold)).
    eapply Permutation_Forall; [symmetry; apply sort_by_start_perm|].
    destruct (clock_bounds_run mid extract_init Hmid clock_bounds_init) as (_ & _ & H).
    exact H. }
  split; [exact H|]. pose proof (extract_same mid chordThreshold) as E.
  now rewrite E.
Qed.

Lemma extracted_intervals_ordered_witness :
  Forall (fun g => 0 <= ge_start g /\ ge_start g <= ge_end g)
         (Midisync.extract overlapping_stream (1 # 10)) /\
  Forall (fun g => 0 <= ge_start g /\ ge_start g <= ge_end g)
         (MidisyncNoGui.extract overlapping_stream (1 # 10)).
Proof.
  apply (extracted_intervals_ordered overlapping_stream (1 # 10)).
  repeat constructor; decide_Q.
Defined.

(** ** Counting *)

Lemma size_delete_present (m : gmap Z Q) p t :
  m !! p = Some t -> size m = S (size (delete p m)).
Proof.
  intros H. rewrite <- (insert_delete_id m p t H) at 1.
  apply map_size_insert_None. apply lookup_delete_eq.
Qed.

Lemma on_msg_counts st msg :
  (length (noteEvents (Midisync.on_msg st msg)) +
   size (activeNotes (Midisync.on_msg st msg)) <=
   length (noteEvents st) + size (activeNotes st) +
   (if is_begin msg then 1 else 0))%nat /\
  (length (noteEvents (Midisync.on_msg st msg)) <=
   length (noteEvents st) + (if is_end msg then 1 else 0))%nat.
Proof.
  destruct (is_begin msg) eqn:Hb.
  - rewrite on_msg_begin by assumption. cbn [noteEvents activeNotes].
    rewrite map_size_insert. split; [|lia].
    destruct (activeNotes st !! msg_note msg); unfold id; lia.
  - destruct (is_end msg) eqn:He.
    + rewrite on_msg_end by assumption.
      destruct (activeNotes st !! msg_note msg) as [t|] eqn:Hlk.
      * cbn [noteEvents activeNotes]. rewrite length_app. cbn [length].
        rewrite (size_delete_present _ _ _ Hlk). lia.
      * unfold tick. cbn. lia.
    + rewrite on_msg_other by assumption. unfold tick. cbn. lia.
Qed.

Lemma process_messages_counts mid : forall st,
  (length (noteEvents (Midisync.process_messages mid st)) +
   size (activeNotes (Midisync.process_messages mid st)) <=
   length (noteEvents st) + size (activeNotes st) +
   length (List.filter is_begin mid))%nat /\
  (length (noteEvents (Midisync.process_messages mid st)) <=
   length (noteEvents st) + length (List.filter is_end mid))%nat.
Proof.
  induction mid as [|msg mid IH]; intros st.
  - cbn. lia.
  - rewrite process_messages_cons.
    destruct (IH (Midisync.on_msg st msg)) as [H1 H2].
    destruct (on_msg_counts st msg) as [H3 H4].
    cbn [List.filter].
    destruct (is_begin msg), (is_end msg); cbn [length]; lia.
Qed.

(** X2.  The extractor never returns more groups than the file has note
    begins, nor more than it has note ends; the notes still sounding at
    the end of the file count against the begins as well. *)
Theorem groups_bounded_by_messages :
  forall mid chordThreshold,
    let final := Midisync.process_messages mid extract_init in
    (length (Midisync.extract mid chordThreshold) + size (activeNotes final)
       <= length (List.filter is_begin mid))%nat /\
    (length (Midisync.extract mid chordThreshold)
       <= length (List.filter is_end mid))%nat.
Proof.
  intros mid chordThreshold final.
  pose proof (sublist_length _ _ (extract_from_notes mid chordThreshold)) as Hsub.
  rewrite !length_map in Hsub.
  assert (Hsort : length (sorted_notes mid) = length (noteEvents final)).
  { apply Permutation_length, sort_by_start_perm. }
  destruct (process_messages_counts mid extract_init) as [H1 H2].
  fold final in H1, H2. cbn in H1, H2.
  rewrite map_size_empty in H1. lia.
Qed.

(** ** Matched and unterminated notes *)

Lemma untouched_lookup p st msg :
  touches p msg = false ->
  activeNotes (Midisync.on_msg st msg) !! p = activeNotes st !! p.
Proof.
  unfold touches. intros H.
  destruct (is_begin msg) eqn:Hb.
  - cbn in H. apply Z.eqb_neq in H.
    rewrite on_msg_begin by assumption. cbn. now rewrite lookup_insert_ne.
  - destruct (is_end msg) eqn:He.
    + cbn in H. apply Z.eqb_neq in H. rewrite on_msg_end by assumption.
      destruct (activeNotes st !! msg_note msg); [|reflexivity].
      cbn. now rewrite lookup_delete_ne.
    + now rewrite on_msg_other.
Qed.

Lemma untouched_lookup_run p between : forall st,
  Forall (fun msg => touches p msg = false) between ->
  activeNotes (Midisync.process_messages between st) !! p = activeNotes st !! p.
Proof.
  induction between as [|msg between IH]; intros st H; [reflexivity|].
  inversion H; subst. rewrite process_messages_cons, IH by assumption.
  now apply untouched_lookup.
Qed.

(** X3.  A note begin followed, after messages that neither begin nor
    end its pitch, by a note end for the pitch emits exactly one note
    event: it carries the pitch, starts at the clock of the begin, ends
    at the clock of the end, and the pitch is no longer recorded as
    sounding.  The note lasts the delta times of the messages after the
    begin, the end included. *)
Theorem matched_pair_emits_interval :
  forall st first between final,
    is_begin first = true -> is_end final = true ->
    msg_note final = msg_note first ->
    Forall (fun msg => touches (msg_note first) msg = false) between ->
    let before := Midisync.process_messages (first :: between) st in
    let note := {| pitch := msg_note first;
                   ne_start := currentTime st + msg_time first;
                   ne_end := currentTime before + msg_time final |} in
    Midisync.process_messages (first :: between ++ [final]) st =
      {| noteEvents := noteEvents before ++ [note];
         currentTime := currentTime before + msg_time final;
         activeNotes := delete (msg_note first) (activeNotes before) |} /\
    ne_end note - ne_start note == Qsum (map msg_time between) + msg_time final.
Proof.
  intros st first between final Hb He Hp Hbetween before note. split.
  - change (first :: between ++ [final]) with ((first :: between) ++ [final]).
    rewrite process_messages_app. fold before.
    rewrite process_messages_cons. cbn [Midisync.process_messages fold_left].
    rewrite on_msg_end by assumption. rewrite Hp.
    assert (Hlk : activeNotes before !! msg_note first =
                  Some (currentTime st + msg_time first)).
    { unfold before. rewrite process_messages_cons.
      rewrite untouched_lookup_run by assumption.
      rewrite on_msg_begin by assumption. cbn. apply lookup_insert_eq. }
    rewrite Hlk. reflexivity.
  - unfold note, before. cbn [ne_end ne_start].
    rewrite process_messages_cons, clock_is_sum_of_deltas, on_msg_clock. lra.
Qed.

Lemma matched_pair_emits_interval_witness :
  let first := mkMsg note_on 60 64 (1 # 2) in
  let between := [ mkMsg note_on 62 64 1; mkMsg other_type 0 0 (1 # 4) ] in
  let final := mkMsg note_on 60 0 2 in
  let before := Midisync.process_messages (first :: between) extract_init in
  let note := {| pitch := 60; ne_start := currentTime extract_init + (1 # 2);
                 ne_end := currentTime before + 2 |} in
  Midisync.process_messages (first :: between ++ [final]) extract_init =
    {| noteEvents := noteEvents before ++ [note];
       currentTime := currentTime before + 2;
       activeNotes := delete 60%Z (activeNotes before) |} /\
  ne_end note - ne_start note == Qsum (map msg_time between) + 2.
Proof.
  intros first between final.
  apply (matched_pair_emits_interval extract_init first between final);
    try reflexivity.
  repeat constructor.
Defined.

(** X4.  A note begin whose pitch is never ended afterwards leaves no
    trace in the result: the extractor returns the same groups as if
    the begin were a message that only carries its delta time. *)
Theorem unterminated_note_dropped :
  forall pre first rest chordThreshold,
    is_begin first = true ->
    Forall (fun msg => ends_pitch (msg_note first) msg = false) rest ->
    Midisync.extract (pre ++ first :: rest) chordThreshold =
    Midisync.extract (pre ++ silence first :: rest) chordThreshold.
Proof.
  intros pre first rest chordThreshold Hb Hrest.
  unfold Midisync.extract. do 2 f_equal.
  rewrite !process_messages_app, !process_messages_cons.
  apply (agree_off_run (msg_note first) rest); [assumption|].
  rewrite on_msg_silence, on_msg_begin by assumption.
  unfold agree_off, tick. cbn. repeat split. apply delete_insert_eq.
Qed.

Lemma unterminated_note_dropped_witness :
  let on60 := mkMsg note_on 60 64 1 in
  let rest := [ mkMsg note_on 62 64 1; mkMsg note_off 62 0 1 ] in
  Midisync.extract ([] ++ on60 :: rest) (1 # 10) =
  Midisync.extract ([] ++ silence on60 :: rest) (1 # 10).
Proof.
  intros on60 rest.
  apply (unterminated_note_dropped [] on60 rest (1 # 10)); [reflexivity|].
  repeat constructor.
Defined.

(** ** Shape of the result *)

(** X5.  The groups the extractor returns are numbered 1, 2, 3, ...
    without gaps, in both programs. *)
Theorem groups_numbered_from_one :
  forall mid chordThreshold,
    map noteNum (Midisync.extract mid chordThreshold) =
      map Z.of_nat (seq 1 (length (Midisync.extract mid chordThreshold))) /\
    map noteNum (MidisyncNoGui.extract mid chordThreshold) =
      map Z.of_nat (seq 1 (length (MidisyncNoGui.extract mid chordThreshold))).
Proof.
  intros mid chordThreshold.
  pose proof (extract_same mid chordThreshold) as E. rewrite E.
  destruct (sweep_bounds_run chordThreshold (sorted_notes mid) sweep_init
              (sweep_bounds_init chordThreshold)) as (_ & H & _).
  split; exact H.
Qed.

(** X6.  Each group starts more than the chord threshold after the
    group before it, for every threshold and every list of note events,
    sorted or not. *)
Theorem group_starts_apart :
  forall chordThreshold events,
    starts_apart chordThreshold (Midisync.group_notes chordThreshold events) /\
    starts_apart chordThreshold (MidisyncNoGui.group_notes chordThreshold events).
Proof.
  intros chordThreshold events.
  destruct (sweep_bounds_run chordThreshold events sweep_init
              (sweep_bounds_init chordThreshold)) as (_ & _ & _ & H).
  split; exact H.
Qed.

(** X7.  The groups carry, in order, the start and end of some of the
    note events given to the grouping loop, so there are never more
    groups than notes; and the first note always opens group 1 with its
    own start and end. *)
Theorem groups_are_notes :
  forall chordThreshold events,
    sublist (map group_times (Midisync.group_notes chordThreshold events))
            (map note_times events) /\
    (length (Midisync.group_notes chordThreshold events) <= length events)%nat /\
    (forall event,
        exists more,
          Midisync.group_notes chordThreshold (event :: events) =
          {| noteNum := 1; ge_start := ne_start event; ge_end := ne_end event |} :: more).
Proof.
  intros chordThreshold events.
  assert (Hsub : sublist (map group_times (Midisync.group_notes chordThreshold events))
                         (map note_times events)).
  { unfold Midisync.group_notes.
    destruct (sweep_appends chordThreshold events sweep_init) as (new & -> & H).
    exact H. }
  split; [exact Hsub|]. split.
  - apply sublist_length in Hsub. now rewrite !length_map in Hsub.
  - intros event. unfold Midisync.group_notes. rewrite sweep_cons.
    rewrite on_note_new by reflexivity.
    destruct (sweep_appends chordThreshold events
                {| sw_noteNum := sw_noteNum sweep_init + 1;
                   lastStartTime := Some (ne_start event);
                   groupedEvents := groupedEvents sweep_init ++
                     [ {| noteNum := sw_noteNum sweep_init + 1;
                          ge_start := ne_start event; ge_end := ne_end event |} ] |})
      as (new & -> & _).
    exists new. reflexivity.
Qed.

(** ** Sorted input *)

Lemma sweep_keeps chordThreshold events st g :
  In g (groupedEvents st) ->
  In g (groupedEvents (Midisync.sweep chordThreshold events st)).
Proof.
  intros H. destruct (sweep_appends chordThreshold events st) as (new & -> & _).
  apply in_or_app. now left.
Qed.

Lemma sweep_covers chordThreshold :
  0 <= chordThreshold ->
  forall events st,
    StronglySorted by_start events ->
    (forall a, lastStartTime st = Some a ->
       (exists g, In g (groupedEvents st) /\ ge_start g = a) /\
       Forall (fun e => a <= ne_start e) events) ->
    forall e, In e events ->
      exists g, In g (groupedEvents (Midisync.sweep chordThreshold events st)) /\
                ge_start g <= ne_start e /\ ne_start e - ge_start g <= chordThreshold.
Proof.
  intros Hthr. induction events as [|event events IH]; intros st Hsorted Hst e He;
    [destruct He|].
  inversion Hsorted as [|? ? Hsorted' Hhd]; subst.
  rewrite sweep_cons.
  destruct (on_note_cases chordThreshold st event) as [[Heq Hs]|[Heq Hs]]; rewrite Heq.
  - destruct (lastStartTime st) as [a|] eqn:Hlast; [|discriminate].
    cbn in Hs. apply Py_gt_false in Hs.
    destruct (Hst a eq_refl) as ((g & Hg & Hga) & Hall).
    inversion Hall as [|? ? Ha Hall']; subst.
    destruct He as [<-|He].
    + exists g. split; [now apply sweep_keeps|]. lra.
    + apply IH; [assumption| |assumption].
      intros a' Ha'. rewrite Hlast in Ha'. inversion Ha'; subst. split; eauto.
  - set (g := {| noteNum := sw_noteNum st + 1; ge_start := ne_start event;
                 ge_end := ne_end event |}).
    destruct He as [<-|He].
    + exists g. split.
      * apply sweep_keeps. cbn. apply in_or_app. right. now left.
      * cbn. lra.
    + apply IH; [assumption| |assumption].
      intros a Ha. cbn in Ha. inversion Ha; subst. split.
      * exists g. split; [|reflexivity]. cbn. apply in_or_app. right. now left.
      * exact Hhd.
Qed.

(** X8.  With a chord threshold that is not negative, every note event
    the message loop emits is covered by a group of the result: some
    group starts at or before the note's start, by no more than the
    threshold. *)
Theorem every_note_in_a_group :
  forall mid chordThreshold e,
    0 <= chordThreshold ->
    In e (noteEvents (Midisync.process_messages mid extract_init)) ->
    exists g, In g (Midisync.extract mid chordThreshold) /\
              ge_start g <= ne_start e /\ ne_start e - ge_start g <= chordThreshold.
Proof.
  intros mid chordThreshold e Hthr He.
  apply (sweep_covers chordThreshold Hthr (sorted_notes mid) sweep_init).
  - apply sort_by_start_sorted.
  - intros a Ha. discriminate Ha.
  - eapply Permutation_in; [symmetry; apply sort_by_start_perm|exact He].
Qed.

Lemma every_note_in_a_group_witness :
  exists g, In g (Midisync.extract overlapping_stream (1 # 10)) /\
            ge_start g <= 1 /\ 1 - ge_start g <= 1 # 10.
Proof.
  apply (every_note_in_a_group overlapping_stream (1 # 10) (mkNote 62 1 2)).
  - decide_Q.
  - vm_compute. left. reflexivity.
Defined.

Lemma sweep_separates chordThreshold :
  chordThreshold < 0 ->
  forall events st,
    StronglySorted by_start events ->
    (forall a, lastStartTime st = Some a -> Forall (fun e => a <= ne_start e) events) ->
    exists new,
      groupedEvents (Midisync.sweep chordThreshold events st) = groupedEvents st ++ new /\
      map group_times new = map note_times events.
Proof.
  intros Hthr. induction events as [|event events IH]; intros st Hsorted Hst.
  - exists []. cbn. now rewrite app_nil_r.
  - inversion Hsorted as [|? ? Hsorted' Hhd]; subst. rewrite sweep_cons.
    rewrite on_note_new.
    + destruct (IH {| sw_noteNum := sw_noteNum st + 1;
                      lastStartTime := Some (ne_start event);
                      groupedEvents := groupedEvents st ++
                        [ {| noteNum := sw_noteNum st + 1; ge_start := ne_start event;
                             ge_end := ne_end event |} ] |} Hsorted')
        as (new & Hnew & Htimes).
      { intros a Ha. cbn in Ha. inversion Ha; subst. exact Hhd. }
      rewrite Hnew. cbn [groupedEvents]. rewrite <- app_assoc.
      eexists. split; [reflexivity|]. cbn [map app]. now rewrite Htimes.
    + destruct (lastStartTime st) as [a|] eqn:Hlast; [|reflexivity].
      cbn. apply Py_gt_true. specialize (Hst a eq_refl).
      inversion Hst; subst. lra.
Qed.

(** X9.  With a negative chord threshold nothing is grouped: the
    extractor returns one group for every note event the message loop
    emits, in order of start time, each with the note's start and end. *)
Theorem negative_threshold_groups_nothing :
  forall mid chordThreshold,
    chordThreshold < 0 ->
    map group_times (Midisync.extract mid chordThreshold) =
    map note_times (sorted_notes mid) /\
    length (Midisync.extract mid chordThreshold) =
    length (noteEvents (Midisync.process_messages mid extract_init)).
Proof.
  intros mid chordThreshold Hthr.
  destruct (sweep_separates chordThreshold Hthr (sorted_notes mid) sweep_init
              (sort_by_start_sorted _)) as (new & Hnew & Htimes).
  { intros a Ha. discriminate Ha. }
  assert (H : map group_times (Midisync.extract mid chordThreshold) =
              map note_times (sorted_notes mid)).
  { unfold Midisync.extract, Midisync.group_notes. fold (sorted_notes mid).
    rewrite Hnew. exact Htimes. }
  split; [exact H|].
  apply (f_equal (@length _)) in H. rewrite !length_map in H. rewrite H.
  apply Permutation_length, sort_by_start_perm.
Qed.

Lemma negative_threshold_groups_nothing_witness :
  let chord := [ mkMsg note_on 60 64 0; mkMsg note_on 64 64 0;
                 mkMsg note_off 60 0 1; mkMsg note_off 64 0 0 ] in
  map group_times (Midisync.extract chord (-1)) = map note_times (sorted_notes chord) /\
  length (Midisync.extract chord (-1)) =
  length (noteEvents (Midisync.process_messages chord extract_init)).
Proof.
  intros chord. apply (negative_threshold_groups_nothing chord (-1)). decide_Q.
Defined.

(** * Further properties of the timeline builder *)

(** ** Fillers *)

Lemma timeline_fillers_positive sourceClip : forall groups cs currentPos,
  Forall (fun c => is_filler c = false) cs ->
  Forall (fun c => is_filler c = true -> 0 < clip_duration sourceClip c)
         (timeline sourceClip currentPos groups cs).
Proof.
  induction groups as [|event groups IH]; intros cs currentPos Hcs; [constructor|].
  destruct cs as [|c cs]; [constructor|]. inversion Hcs; subst.
  cbn [timeline]. apply Forall_app. split.
  - unfold gap. destruct (Py.gt (ge_start event) currentPos) eqn:E; [|constructor].
    apply Py_gt_true in E. constructor; [|constructor]. intros _. cbn. lra.
  - constructor; [|now apply IH].
    unfold flip_if_even. destruct (_ =? _)%Z; cbn; [discriminate|congruence].
Qed.

Lemma build_inv sourceClip note_clip groups clips :
  bind (foldM (on_event_with sourceClip note_clip) groups ([], 0))
       (fun st => Ok (fst st)) = Ok clips ->
  exists cs,
    Forall2 (fun event c => note_clip (content_duration event) = Ok c) groups cs /\
    clips = timeline sourceClip 0 groups cs.
Proof.
  intros H.
  destruct (foldM (on_event_with sourceClip note_clip) groups ([], 0)) as [st| |] eqn:E;
    try discriminate.
  cbn [bind] in H. inversion H; subst clips.
  apply foldM_on_event_inv in E. destruct E as (cs & Hcs & ->).
  exists cs. split; [assumption|reflexivity].
Qed.

(** X10.  In a timeline either program builds, every filler has a
    duration greater than 0: a green clip is only put before a group
    that starts after the cursor. *)
Theorem fillers_have_positive_duration :
  forall sourceClip groups clips,
    (MidisyncNoGui.build_timeline sourceClip groups = Ok clips \/
     exists fuel, Midisync.build_timeline fuel sourceClip groups = Ok clips) ->
    Forall (fun c => is_filler c = true -> 0 < clip_duration sourceClip c) clips.
Proof.
  intros sourceClip groups clips [H|[fuel H]].
  - rewrite nogui_build_timeline in H. apply build_inv in H.
    destruct H as (cs & Hcs & ->). apply timeline_fillers_positive.
    clear -Hcs. induction Hcs as [|event c groups cs Hc _ IH]; constructor; [|exact IH].
    now destruct (nogui_note_clip_shape _ _ _ Hc).
  - rewrite gui_build_timeline in H. apply build_inv in H.
    destruct H as (cs & Hcs & ->). apply timeline_fillers_positive.
    clear -Hcs. induction Hcs as [|event c groups cs Hc _ IH]; constructor; [|exact IH].
    now destruct (gui_note_clip_shape _ _ _ _ Hc).
Qed.

Lemma fillers_have_positive_duration_witness :
  let sourceClip := mkSource 2 640 480 in
  Forall (fun c => is_filler c = true -> 0 < clip_duration sourceClip c)
         [ ColorClip (640, 480)%Z (0, 255, 0)%Z 1; Subclip Source 1;
           FlipLR (Subclip Source 2) ].
Proof.
  intros sourceClip.
  apply (fillers_have_positive_duration sourceClip [ mkGroup 1 1 2; mkGroup 2 2 4 ]).
  left. reflexivity.
Defined.

(** ** The length of the video *)

Lemma timeline_total_ge sourceClip : forall groups cs currentPos,
  Forall (fun event => 0 <= content_duration event) groups ->
  Forall2 (fun event c => 0 <= content_duration event ->
                          clip_duration sourceClip c == content_duration event) groups cs ->
  cursor_after currentPos groups - currentPos <=
  total_duration sourceClip (timeline sourceClip currentPos groups cs).
Proof.
  induction groups as [|event groups IH]; intros cs currentPos Hd Hcs.
  - unfold total_duration, Qsum, cursor_after. cbn. lra.
  - inversion Hcs as [|? c ? cs' Hc Hrest]; subst. inversion Hd as [|? ? Hd0 Hd']; subst.
    cbn [timeline]. rewrite total_duration_app, total_duration_cons.
    rewrite clip_duration_flip, (Hc Hd0).
    pose proof (IH cs' (ge_end event) Hd' Hrest) as Hrec.
    change (cursor_after currentPos (event :: groups))
      with (cursor_after (ge_end event) groups).
    unfold content_duration in *.
    unfold gap. destruct (Py.gt (ge_start event) currentPos) eqn:E.
    + unfold total_duration at 1, Qsum. cbn [map fold_right clip_duration]. lra.
    + apply Py_gt_false in E.
      unfold total_duration at 1, Qsum. cbn [map fold_right]. lra.
Qed.

(** X11.  For a source of positive duration and a non-empty list of
    groups none of which ends before it starts, overlapping or not, the
    timeline both programs build is never shorter than the end of the
    last group. *)
Theorem timeline_reaches_last_end :
  forall sourceClip groups d,
    0 < src_duration sourceClip ->
    groups <> [] ->
    Forall (fun event => 0 <= content_duration event) groups ->
    (exists clips,
        MidisyncNoGui.build_timeline sourceClip groups = Ok clips /\
        ge_end (List.last groups d) <= total_duration sourceClip clips) /\
    (exists clips,
        (forall fuel, (fuel_needed sourceClip groups <= fuel)%nat ->
            Midisync.build_timeline fuel sourceClip groups = Ok clips) /\
        ge_end (List.last groups d) <= total_duration sourceClip clips).
Proof.
  intros sourceClip groups d Hs Hne Hd. split.
  - destruct (nogui_build_total sourceClip groups Hs) as (cs & Hcs & Hbuild).
    exists (timeline sourceClip 0 groups cs). split; [assumption|].
    rewrite <- (cursor_after_last groups 0 d Hne).
    assert (H := timeline_total_ge sourceClip groups cs 0 Hd).
    assert (cursor_after 0 groups - 0 <=
            total_duration sourceClip (timeline sourceClip 0 groups cs)).
    { apply H. eapply List.Forall2_impl; [|exact Hcs]. now intros event c (_ & _ & _ & H'). }
    lra.
  - destruct (gui_build_total sourceClip groups Hs) as (cs & Hcs & Hbuild).
    exists (timeline sourceClip 0 groups cs). split; [assumption|].
    rewrite <- (cursor_after_last groups 0 d Hne).
    assert (H := timeline_total_ge sourceClip groups cs 0 Hd).
    assert (cursor_after 0 groups - 0 <=
            total_duration sourceClip (timeline sourceClip 0 groups cs)).
    { apply H. eapply List.Forall2_impl; [|exact Hcs]. now intros event c (_ & _ & _ & H'). }
    lra.
Qed.

Lemma timeline_reaches_last_end_witness :
  let sourceClip := mkSource 10 640 480 in
  (exists clips,
      MidisyncNoGui.build_timeline sourceClip overlapping_groups = Ok clips /\
      2 <= total_duration sourceClip clips) /\
  (exists clips,
      (forall fuel, (fuel_needed sourceClip overlapping_groups <= fuel)%nat ->
          Midisync.build_timeline fuel sourceClip overlapping_groups = Ok clips) /\
      2 <= total_duration sourceClip clips).
Proof.
  intros sourceClip.
  apply (timeline_reaches_last_end sourceClip overlapping_groups (mkGroup 0 0 0)).
  - decide_Q.
  - discriminate.
  - repeat constructor; decide_Q.
Defined.

(** ** Looping *)



(** ** A source without duration *)

Lemma nogui_note_clip_zero_source sourceClip duration :
  src_duration sourceClip == 0 -> 0 < duration ->
  MidisyncNoGui.note_clip sourceClip duration = Raise ZeroDivisionError.
Proof.
  intros Hs Hd. unfold MidisyncNoGui.note_clip, MidisyncNoGui.numLoops.
  assert (Hlt : Py.lt (src_duration sourceClip) duration = true)
    by (apply Py_lt_true; lra).
  rewrite Hlt. apply Qeq_bool_iff in Hs. now rewrite Hs.
Qed.

Lemma gui_note_clip_zero_source fuel sourceClip duration :
  src_duration sourceClip == 0 -> 0 < duration ->
  Midisync.note_clip fuel sourceClip duration = OutOfFuel.
Proof.
  intros Hs Hd. unfold Midisync.note_clip.
  assert (Hlt : Py.lt (src_duration sourceClip) duration = true)
    by (apply Py_lt_true; lra).
  rewrite Hlt. now rewrite bounce_never_ends_on_empty_source.
Qed.

Lemma foldM_first_failure sourceClip note_clip (failure : forall A, Res A) :
  (forall A B (k : A -> Res B), bind (failure A) k = failure B) ->
  (forall duration, duration <= 0 -> exists c, note_clip duration = Ok c) ->
  (forall duration, 0 < duration -> note_clip duration = failure Clip) ->
  forall groups st,
    Exists (fun event => 0 < content_duration event) groups ->
    foldM (on_event_with sourceClip note_clip) groups st = failure _.
Proof.
  intros Hbind Hok Hbad. induction groups as [|event groups IH]; intros st Hex.
  - inversion Hex.
  - cbn [foldM]. unfold on_event_with at 1.
    destruct (Qlt_le_dec 0 (content_duration event)) as [Hd|Hd].
    + rewrite (Hbad _ Hd). now rewrite !Hbind.
    + destruct (Hok _ Hd) as (c & ->). cbn [bind]. apply IH.
      inversion Hex; subst; [lra|assumption].
Qed.

Lemma build_fails_on_empty_source :
  forall sourceClip groups,
    src_duration sourceClip == 0 ->
    Exists (fun event => 0 < content_duration event) groups ->
    MidisyncNoGui.build_timeline sourceClip groups = Raise ZeroDivisionError /\
    forall fuel, Midisync.build_timeline fuel sourceClip groups = OutOfFuel.
Proof.
  intros sourceClip groups Hs Hex. split.
  - rewrite nogui_build_timeline.
    rewrite (foldM_first_failure sourceClip _ (fun A => Raise ZeroDivisionError));
      try assumption; try reflexivity.
    + intros duration Hd. exists (trimmed duration).
      apply nogui_note_clip_fits; lra.
    + intros duration Hd. now apply nogui_note_clip_zero_source.
  - intros fuel. rewrite gui_build_timeline.
    rewrite (foldM_first_failure sourceClip _ (fun A => OutOfFuel));
      try assumption; try reflexivity.
    + intros duration Hd. exists (trimmed duration).
      apply gui_note_clip_fits; lra.
    + intros duration Hd. now apply gui_note_clip_zero_source.
Qed.

(** X13.  With a source of duration 0 and a group of positive duration
    in the list, neither program builds a timeline:
    [midisync_nogui.py] stops with [ZeroDivisionError], and the [while]
    loop of [midisync.py] does not end within any number of
    iterations. *)
Theorem empty_source_builds_nothing :
  forall sourceClip groups,
    src_duration sourceClip == 0 ->
    Exists (fun event => 0 < content_duration event) groups ->
    MidisyncNoGui.build_timeline sourceClip groups = Raise ZeroDivisionError /\
    forall fuel, Midisync.build_timeline fuel sourceClip groups = OutOfFuel.
Proof.
  intros sourceClip groups Hs Hex.
  destruct (build_fails_on_empty_source sourceClip groups Hs Hex) as [H1 H2].
  split; [exact H1|exact H2].
Qed.

Lemma empty_source_builds_nothing_witness :
  let sourceClip := mkSource 0 640 480 in
  let groups := [ mkGroup 1 0 0; mkGroup 2 1 2 ] in
  MidisyncNoGui.build_timeline sourceClip groups = Raise ZeroDivisionError /\
  forall fuel, Midisync.build_timeline fuel sourceClip groups = OutOfFuel.
Proof.
  intros sourceClip groups.
  apply (empty_source_builds_nothing sourceClip groups).
  - reflexivity.
  - right. left. decide_Q.
Defined.

(** ** The two programs side by side *)

Lemma foldM_ext_in {A B : Type} (f g : A -> B -> Res A) l :
  Forall (fun b => forall a, f a b = g a b) l ->
  forall a, foldM f l a = foldM g l a.
Proof.
  induction 1 as [|b l Hb _ IH]; intros a; cbn; [reflexivity|].
  rewrite Hb. destruct (g a b); cbn; auto.
Qed.

Lemma builds_agree_when_notes_fit :
  forall fuel sourceClip groups,
    0 <= src_duration sourceClip ->
    Forall (fun event => content_duration event <= src_duration sourceClip) groups ->
    Midisync.build_timeline fuel sourceClip groups =
    MidisyncNoGui.build_timeline sourceClip groups /\
    exists clips, MidisyncNoGui.build_timeline sourceClip groups = Ok clips.
Proof.
  intros fuel sourceClip groups Hs Hfit.
  assert (Heq : Midisync.build_timeline fuel sourceClip groups =
                MidisyncNoGui.build_timeline sourceClip groups).
  { rewrite gui_build_timeline, nogui_build_timeline. f_equal.
    apply foldM_ext_in. eapply List.Forall_impl; [|exact Hfit].
    intros event Hd st. unfold on_event_with.
    now rewrite gui_note_clip_fits, nogui_note_clip_fits. }
  split; [exact Heq|].
  exists (timeline sourceClip 0 groups (map (fun event => trimmed (content_duration event)) groups)).
  rewrite nogui_build_timeline.
  rewrite (foldM_on_event_ok sourceClip _ groups
             (map (fun event => trimmed (content_duration event)) groups)); [reflexivity|].
  clear Heq. induction Hfit as [|event groups Hd _ IH]; cbn [map]; constructor; [|exact IH].
  now apply nogui_note_clip_fits.
Qed.

(** X14.  When no group lasts longer than the source (whose duration is
    not negative), the two programs build the same timeline, whatever
    the loop bound: bouncing and looping only differ on notes longer
    than the source. *)
Theorem programs_agree_when_notes_fit :
  forall fuel sourceClip groups,
    0 <= src_duration sourceClip ->
    Forall (fun event => content_duration event <= src_duration sourceClip) groups ->
    Midisync.build_timeline fuel sourceClip groups =
    MidisyncNoGui.build_timeline sourceClip groups /\
    exists clips, MidisyncNoGui.build_timeline sourceClip groups = Ok clips.
Proof.
  intros fuel sourceClip groups Hs Hfit.
  exact (builds_agree_when_notes_fit fuel sourceClip groups Hs Hfit).
Qed.

Lemma programs_agree_when_notes_fit_witness :
  let sourceClip := mkSource 5 640 480 in
  Midisync.build_timeline 0 sourceClip overlapping_groups =
  MidisyncNoGui.build_timeline sourceClip overlapping_groups /\
  exists clips, MidisyncNoGui.build_timeline sourceClip overlapping_groups = Ok clips.
Proof.
  intros sourceClip.
  apply (programs_agree_when_notes_fit 0%nat sourceClip overlapping_groups).
  - decide_Q.
  - repeat constructor; decide_Q.
Defined.

Lemma timelines_alike sourceClip : forall groups cs cs' currentPos,
  Forall2 (fun c c' => clip_duration sourceClip c == clip_duration sourceClip c' /\
                       is_filler c = false /\ is_filler c' = false /\
                       is_flipped c = false /\ is_flipped c' = false) cs cs' ->
  Forall2 (fun c c' => clip_duration sourceClip c == clip_duration sourceClip c' /\
                       is_filler c = is_filler c' /\ is_flipped c = is_flipped c')
          (timeline sourceClip currentPos groups cs)
          (timeline sourceClip currentPos groups cs').
Proof.
  induction groups as [|event groups IH]; intros cs cs' currentPos H; [constructor|].
  inversion H as [|c c' ? ? (Hd & Hf & Hf' & Hl & Hl') Hrest]; subst; [constructor|].
  cbn [timeline]. apply Forall2_app.
  - unfold gap. destruct (Py.gt (ge_start event) currentPos); constructor; [|constructor].
    split; [reflexivity|split; reflexivity].
  - constructor; [|now apply IH].
    unfold flip_if_even. destruct (_ =? _)%Z; cbn [clip_duration is_filler is_flipped].
    + split; [exact Hd|split; reflexivity].
    + rewrite Hf, Hf', Hl, Hl'. split; [exact Hd|split; reflexivity].
Qed.

(** X15.  With a source of positive duration and groups none of which
    ends before it starts, the timelines of the two programs have the
    same number of clips and agree clip by clip on duration, on being a
    filler and on being flipped: bouncing and looping differ only inside
    the note clips. *)
Theorem bounce_and_loop_timelines_alike :
  forall sourceClip groups,
    0 < src_duration sourceClip ->
    Forall (fun event => 0 <= content_duration event) groups ->
    exists bounced looped,
      (forall fuel, (fuel_needed sourceClip groups <= fuel)%nat ->
          Midisync.build_timeline fuel sourceClip groups = Ok bounced) /\
      MidisyncNoGui.build_timeline sourceClip groups = Ok looped /\
      Forall2 (fun c c' => clip_duration sourceClip c == clip_duration sourceClip c' /\
                           is_filler c = is_filler c' /\ is_flipped c = is_flipped c')
              bounced looped.
Proof.
  intros sourceClip groups Hs Hd.
  destruct (gui_build_total sourceClip groups Hs) as (cs & Hcs & Hgui).
  destruct (nogui_build_total sourceClip groups Hs) as (cs' & Hcs' & Hnogui).
  exists (timeline sourceClip 0 groups cs), (timeline sourceClip 0 groups cs').
  split; [assumption|]. split; [assumption|].
  apply timelines_alike.
  clear Hgui Hnogui. revert cs' Hcs' Hd.
  induction Hcs as [|event c groups0 cs0 Hc _ IH]; intros cs' Hcs' Hd;
    inversion Hcs' as [|? c' ? cs'' Hc' Hrest]; subst; constructor.
  - inversion Hd as [|? ? Hd0 _]; subst.
    destruct Hc as (_ & Hf & Hl & Hdur), Hc' as (_ & Hf' & Hl' & Hdur').
    split; [|repeat split; assumption].
    rewrite (Hdur Hd0), (Hdur' Hd0). reflexivity.
  - inversion Hd; subst. now apply IH.
Qed.

Lemma bounce_and_loop_timelines_alike_witness :
  let sourceClip := mkSource 2 640 480 in
  let groups := [ mkGroup 1 1 6; mkGroup 2 7 8 ] in
  exists bounced looped,
    (forall fuel, (fuel_needed sourceClip groups <= fuel)%nat ->
        Midisync.build_timeline fuel sourceClip groups = Ok bounced) /\
    MidisyncNoGui.build_timeline sourceClip groups = Ok looped /\
    Forall2 (fun c c' => clip_duration sourceClip c == clip_duration sourceClip c' /\
                         is_filler c = is_filler c' /\ is_flipped c = is_flipped c')
            bounced looped.
Proof.
  intros sourceClip groups.
  apply (bounce_and_loop_timelines_alike sourceClip groups).
  - decide_Q.
  - repeat constructor; decide_Q.
Defined.

(** ** The chunks of a bounce *)

Lemma ping_pong_chunks sourceClip :
  0 < src_duration sourceClip ->
  forall chunks remaining forward i c,
    ping_pong sourceClip remaining forward chunks ->
    nth_error chunks i = Some c ->
    0 < clip_duration sourceClip c /\
    clip_duration sourceClip c <= src_duration sourceClip /\
    ((S i < length chunks)%nat -> clip_duration sourceClip c = src_duration sourceClip).
Proof.
  intros Hs. induction chunks as [|c0 chunks IH]; intros rem forward i c Hpp Hnth.
  - now destruct i.
  - destruct Hpp as (Hr & -> & Hpp).
    destruct (min_bounds rem (src_duration sourceClip) Hr Hs) as (Hm0 & Hm1 & Hm2).
    destruct i as [|i].
    + cbn in Hnth. inversion Hnth; subst.
      rewrite clip_duration_chunk by lra. repeat split; try assumption.
      intros Hlen. destruct chunks as [|c1 chunks]; [cbn in Hlen; lia|].
      destruct Hpp as (Hr' & _). unfold Py.min in *.
      destruct (Py.lt (src_duration sourceClip) rem); [reflexivity|lra].
    + cbn [nth_error] in Hnth. destruct (IH _ _ _ _ Hpp Hnth) as (H1 & H2 & H3).
      repeat split; try assumption. intros Hlen. apply H3. cbn in Hlen. lia.
Qed.

(** X16.  When [midisync.py] bounces a source of positive duration over
    a longer note, every chunk but the last plays the whole source, and
    the last plays at most the whole source and more than nothing. *)
Theorem bounce_chunks_are_whole_sources :
  forall sourceClip contentDuration,
    0 < src_duration sourceClip ->
    src_duration sourceClip < contentDuration ->
    exists chunks,
      Midisync.note_clip (loops sourceClip contentDuration) sourceClip contentDuration =
        Ok (Concatenate chunks) /\
      forall i c, nth_error chunks i = Some c ->
        0 < clip_duration sourceClip c /\
        clip_duration sourceClip c <= src_duration sourceClip /\
        ((S i < length chunks)%nat -> clip_duration sourceClip c = src_duration sourceClip).
Proof.
  intros sourceClip d Hs Hlt.
  destruct (gui_note_clip_bounces sourceClip (loops sourceClip d) d Hs Hlt (le_n _))
    as (chunks & Hclip & Hpp & _).
  exists chunks. split; [assumption|].
  intros i c Hnth. exact (ping_pong_chunks sourceClip Hs chunks d true i c Hpp Hnth).
Qed.

Lemma bounce_chunks_are_whole_sources_witness :
  let sourceClip := mkSource 2 640 480 in
  exists chunks,
    Midisync.note_clip (loops sourceClip 5) sourceClip 5 = Ok (Concatenate chunks) /\
    forall i c, nth_error chunks i = Some c ->
      0 < clip_duration sourceClip c /\
      clip_duration sourceClip c <= 2 /\
      ((S i < length chunks)%nat -> clip_duration sourceClip c = 2).
Proof.
  intros sourceClip.
  apply (bounce_chunks_are_whole_sources sourceClip 5); decide_Q.
Defined.

(** * Properties of the whole run *)

(** ** What a run writes *)

Lemma writes_nothing_bind {A B : Type} (c : IO A) (k : A -> IO B) :
  writes_nothing c -> (forall a, writes_nothing (k a)) ->
  writes_nothing (bindIO c k).
Proof.
  intros Hc Hk w. unfold bindIO. specialize (Hc w).
  destruct (c w) as [[a| |] w']; cbn [snd] in *; try exact Hc.
  now rewrite (Hk a w').
Qed.

Lemma writes_at_most_bind {A B : Type} outputPath fps (c : IO A) (k : A -> IO B) :
  writes_nothing c -> (forall a, writes_at_most outputPath fps (k a)) ->
  writes_at_most outputPath fps (bindIO c k).
Proof.
  intros Hc Hk w. unfold bindIO. specialize (Hc w).
  destruct (c w) as [[a| |] w']; cbn [fst snd] in *; try (left; exact Hc).
  destruct (Hk a w') as [H|(Hpos & finalVideo & H)].
  - left. congruence.
  - right. split; [exact Hpos|]. exists finalVideo. congruence.
Qed.

Lemma writes_nothing_print l : writes_nothing (print l).
Proof. intros w. reflexivity. Qed.

Lemma writes_nothing_lift {A : Type} (r : Res A) : writes_nothing (lift r).
Proof. intros w. reflexivity. Qed.

Lemma writes_nothing_VideoFileClip path : writes_nothing (VideoFileClip path).
Proof.
  intros w. unfold VideoFileClip. now destruct (video_files w !! path).
Qed.

Lemma writes_nothing_gui_extractNotes filePath chordThreshold :
  writes_nothing (Midisync.extractNotes filePath chordThreshold).
Proof.
  intros w. rewrite gui_extractNotes_spec.
  now destruct (midi_files w !! filePath).
Qed.

Lemma writes_nothing_nogui_extractNotes filePath chordThreshold :
  writes_nothing (MidisyncNoGui.extractNotes filePath chordThreshold).
Proof.
  intros w. rewrite nogui_extractNotes_spec.
  now destruct (midi_files w !! filePath).
Qed.

Lemma writes_nothing_at_most {A : Type} outputPath fps (c : IO A) :
  writes_nothing c -> writes_at_most outputPath fps c.
Proof. intros H w. left. apply H. Qed.

Lemma writes_at_most_write {B : Type} finalVideo outputPath fps (k : IO B) :
  writes_nothing k ->
  writes_at_most outputPath fps (bindIO (write_videofile finalVideo outputPath fps) (fun _ => k)).
Proof.
  intros Hk w. unfold bindIO, write_videofile.
  destruct (Z.eqb_spec fps 0) as [Hz|Hz]; [left; reflexivity|].
  destruct (Z.ltb_spec fps 0) as [Hneg|Hpos].
  - left. apply Hk.
  - right. split; [lia|]. exists finalVideo. now rewrite Hk.
Qed.

(** X17.  Whatever the arguments and the files, a run of [createVideo]
    hands at most one video to the encoder, and if it does, the video
    went to the output path it was given at a positive frame rate: 30
    frames per second in [midisync.py], the given frame rate in
    [midisync_nogui.py].  With a frame rate of 0 or less nothing is
    written.  Nothing is said of what the input paths hold afterwards:
    the output path may be one of them. *)
Theorem createVideo_writes_at_most_one_video :
  forall fuel midiPath videoClipPath outputPath chordThreshold fps,
    writes_at_most outputPath 30
      (Midisync.createVideo fuel midiPath videoClipPath outputPath) /\
    writes_at_most outputPath fps
      (MidisyncNoGui.createVideo midiPath videoClipPath outputPath chordThreshold fps).
Proof.
  intros fuel midiPath videoClipPath outputPath chordThreshold fps. split.
  - unfold Midisync.createVideo.
    apply writes_at_most_bind; [apply writes_nothing_gui_extractNotes|].
    intros [|event groups]; [apply writes_nothing_at_most, writes_nothing_print|].
    apply writes_at_most_bind; [apply writes_nothing_VideoFileClip|]. intros sourceClip.
    apply writes_at_most_bind; [apply writes_nothing_lift|]. intros videoClips.
    apply writes_at_most_bind; [apply writes_nothing_print|]. intros _.
    apply writes_at_most_bind; [apply writes_nothing_lift|]. intros finalVideo.
    apply writes_at_most_bind; [apply writes_nothing_print|]. intros _.
    apply writes_at_most_write. apply writes_nothing_print.
  - unfold MidisyncNoGui.createVideo.
    apply writes_at_most_bind; [apply writes_nothing_nogui_extractNotes|].
    intros [|event groups]; [apply writes_nothing_at_most, writes_nothing_print|].
    apply writes_at_most_bind; [apply writes_nothing_VideoFileClip|]. intros sourceClip.
    apply writes_at_most_bind; [apply writes_nothing_lift|]. intros videoClips.
    apply writes_at_most_bind; [apply writes_nothing_print|]. intros _.
    apply writes_at_most_bind; [apply writes_nothing_lift|]. intros finalVideo.
    apply writes_at_most_bind; [apply writes_nothing_print|]. intros _.
    apply writes_at_most_write.
    repeat (apply writes_nothing_bind; [apply writes_nothing_print|intros _]).
    apply writes_nothing_print.
Qed.

(** ** Runs without notes *)

Lemma no_end_no_groups mid chordThreshold :
  Forall (fun msg => is_end msg = false) mid ->
  Midisync.extract mid chordThreshold = [].
Proof.
  intros H.
  assert (Hnone : List.filter is_end mid = []).
  { induction H as [|msg mid' Hmsg _ IH]; [reflexivity|].
    cbn [List.filter]. now rewrite Hmsg. }
  pose proof (sublist_length _ _ (extract_from_notes mid chordThreshold)) as Hsub.
  rewrite !length_map in Hsub.
  assert (Hsort : length (sorted_notes mid) =
                  length (noteEvents (Midisync.process_messages mid extract_init))).
  { apply Permutation_length, sort_by_start_perm. }
  destruct (process_messages_counts mid extract_init) as [_ Hle].
  rewrite Hnone in Hle. cbn in Hle.
  destruct (Midisync.extract mid chordThreshold); [reflexivity|cbn in Hsub; lia].
Qed.

(** X18.  On a readable file in which no note is ever ended (an empty
    file in particular), both programs report the extraction, print
    ["No notes found :("] and return normally: the source clip is not
    opened and nothing is written. *)
Theorem run_without_notes_writes_nothing :
  forall w fuel midiPath videoClipPath outputPath chordThreshold fps mid,
    midi_files w !! midiPath = Some mid ->
    Forall (fun msg => is_end msg = false) mid ->
    Midisync.createVideo fuel midiPath videoClipPath outputPath w =
      (Ok tt,
       with_stdout w (stdout w ++
         extraction_log "MIDI file path: " midiPath (sorted_notes mid)
           (final_sweep mid (1 # 10)) ++ [Text "No notes found :("])) /\
    MidisyncNoGui.createVideo midiPath videoClipPath outputPath chordThreshold fps w =
      (Ok tt,
       with_stdout w (stdout w ++
         extraction_log "MIDI file path : " midiPath (sorted_notes mid)
           (final_sweep mid chordThreshold) ++ [Text "No notes found :("])).
Proof.
  intros w fuel midiPath videoClipPath outputPath chordThreshold fps mid Hmid Hnone.
  split.
  - unfold Midisync.createVideo, bindIO.
    rewrite gui_extractNotes_spec, Hmid, (no_end_no_groups mid (1 # 10) Hnone).
    unfold print, with_stdout. cbn [stdout midi_files video_files written].
    now rewrite <- app_assoc.
  - unfold MidisyncNoGui.createVideo, bindIO.
    rewrite nogui_extractNotes_spec, Hmid, extract_same,
      (no_end_no_groups mid chordThreshold Hnone).
    unfold print, with_stdout. cbn [stdout midi_files video_files written].
    now rewrite <- app_assoc.
Qed.

Lemma run_without_notes_writes_nothing_witness :
  let mid := [ mkMsg other_type 0 0 1; mkMsg note_on 60 64 1 ] in
  let w := {| midi_files := {[ "in.mid" := mid ]}; video_files := ∅;
              stdout := []; written := [] |} in
  Midisync.createVideo 0 "in.mid" "clip.mp4" "out.mp4" w =
    (Ok tt,
     with_stdout w (stdout w ++
       extraction_log "MIDI file path: " "in.mid" (sorted_notes mid)
         (final_sweep mid (1 # 10)) ++ [Text "No notes found :("])) /\
  MidisyncNoGui.createVideo "in.mid" "clip.mp4" "out.mp4" (1 # 20) 60 w =
    (Ok tt,
     with_stdout w (stdout w ++
       extraction_log "MIDI file path : " "in.mid" (sorted_notes mid)
         (final_sweep mid (1 # 20)) ++ [Text "No notes found :("])).
Proof.
  intros mid w.
  apply (run_without_notes_writes_nothing w 0%nat "in.mid" "clip.mp4" "out.mp4"
           (1 # 20) 60%Z mid).
  - reflexivity.
  - repeat constructor.
Defined.

(** ** The script of midisync.py *)

(** X19.  Started with any number of arguments other than three,
    [midisync.py] prints its usage text and leaves with exit status 1;
    no file is read and nothing is written. *)
Theorem wrong_argument_count_prints_usage :
  forall fuel argv w,
    length argv <> 4%nat ->
    Midisync.main fuel argv w =
    (Ok (Exit 1), with_stdout w (stdout w ++ Midisync.usage)).
Proof.
  intros fuel argv w Hlen.
  assert (H : Midisync.main fuel argv =
              bindIO (print_all Midisync.usage) (fun _ => ret (Exit 1))).
  { destruct argv as [|a0 [|a1 [|a2 [|a3 [|a4 argv]]]]]; try reflexivity.
    cbn in Hlen. lia. }
  rewrite H. unfold bindIO. rewrite print_all_spec. reflexivity.
Qed.

Lemma wrong_argument_count_prints_usage_witness :
  let w := {| midi_files := {[ "in.mid" := overlapping_stream ]};
              video_files := {[ "clip.mp4" := mkSource 2 640 480 ]};
              stdout := []; written := [] |} in
  Midisync.main 9 [ "midisync.py"; "in.mid"; "clip.mp4"; "out.mp4"; "60" ] w =
  (Ok (Exit 1), with_stdout w (stdout w ++ Midisync.usage)).
Proof.
  intros w. apply (wrong_argument_count_prints_usage 9%nat). cbn. lia.
Defined.

(** ** How a run ends *)

Lemma gui_createVideo_outcome fuel midiPath videoClipPath outputPath w :
  let run := Midisync.createVideo fuel midiPath videoClipPath outputPath w in
  (fst run, written (snd run)) =
  run_outcome (fun mid => Midisync.extract mid (1 # 10))
              (Midisync.build_timeline fuel) 30 midiPath videoClipPath outputPath w.
Proof.
  cbv zeta. unfold run_outcome, Midisync.createVideo, bindIO.
  rewrite gui_extractNotes_spec.
  destruct (midi_files w !! midiPath) as [mid|]; [|reflexivity].
  destruct (Midisync.extract mid (1 # 10)) as [|event groups]; [reflexivity|].
  unfold VideoFileClip, lift, print, write_videofile.
  cbn [video_files with_stdout stdout midi_files written].
  destruct (video_files w !! videoClipPath) as [sourceClip|]; [|reflexivity].
  destruct (Midisync.build_timeline fuel sourceClip (event :: groups))
    as [videoClips| |]; [|reflexivity..].
  cbn [bind]. destruct (concatenate_videoclips videoClips); reflexivity.
Qed.

Lemma nogui_createVideo_outcome midiPath videoClipPath outputPath chordThreshold fps w :
  let run := MidisyncNoGui.createVideo midiPath videoClipPath outputPath
               chordThreshold fps w in
  (fst run, written (snd run)) =
  run_outcome (fun mid => MidisyncNoGui.extract mid chordThreshold)
              MidisyncNoGui.build_timeline fps midiPath videoClipPath outputPath w.
Proof.
  cbv zeta. unfold run_outcome, MidisyncNoGui.createVideo, bindIO.
  rewrite nogui_extractNotes_spec.
  destruct (midi_files w !! midiPath) as [mid|]; [|reflexivity].
  destruct (MidisyncNoGui.extract mid chordThreshold) as [|event groups]; [reflexivity|].
  unfold VideoFileClip, lift, print, write_videofile.
  cbn [video_files with_stdout stdout midi_files written].
  destruct (video_files w !! videoClipPath) as [sourceClip|]; [|reflexivity].
  destruct (MidisyncNoGui.build_timeline sourceClip (event :: groups))
    as [videoClips| |]; [|reflexivity..].
  cbn [bind]. destruct (concatenate_videoclips videoClips); [|reflexivity..].
  destruct (fps =? 0)%Z; [reflexivity|]. destruct (fps <? 0)%Z; reflexivity.
Qed.

Lemma timeline_of_groups_nonempty sourceClip groups cs :
  groups <> [] -> length cs = length groups ->
  timeline sourceClip 0 groups cs <> [].
Proof.
  destruct groups as [|event groups]; [congruence|].
  destruct cs as [|c cs]; [discriminate|]. intros _ _. apply timeline_nonempty.
Qed.

(** X20.  On a readable file with at least one group and a readable
    source clip of positive duration, [midisync.py] ends normally once
    its loop bound covers the longest note, and has then written exactly
    one video: the concatenation of the timeline of the groups extracted
    with threshold 0.1, to the given path at 30 frames per second. *)
Theorem gui_run_writes_the_timeline :
  forall w fuel midiPath videoClipPath outputPath mid sourceClip,
    midi_files w !! midiPath = Some mid ->
    video_files w !! videoClipPath = Some sourceClip ->
    0 < src_duration sourceClip ->
    let groups := Midisync.extract mid (1 # 10) in
    groups <> [] ->
    (fuel_needed sourceClip groups <= fuel)%nat ->
    let run := Midisync.createVideo fuel midiPath videoClipPath outputPath w in
    exists clips,
      Midisync.build_timeline fuel sourceClip groups = Ok clips /\
      fst run = Ok tt /\
      written (snd run) = written w ++ [ (outputPath, Concatenate clips, 30%Z) ].
Proof.
  intros w fuel midiPath videoClipPath outputPath mid sourceClip Hmid Hvideo Hs
         groups Hne Hfuel run.
  destruct (gui_build_total sourceClip groups Hs) as (cs & Hcs & Hbuild).
  exists (timeline sourceClip 0 groups cs). split; [now apply Hbuild|].
  pose proof (gui_createVideo_outcome fuel midiPath videoClipPath outputPath w) as Hrun.
  cbv zeta in Hrun. fold run in Hrun. unfold run_outcome in Hrun.
  rewrite Hmid, Hvideo in Hrun. fold groups in Hrun.
  destruct groups as [|event groups'] eqn:Eg; [congruence|].
  rewrite (Hbuild fuel Hfuel) in Hrun. cbn [bind] in Hrun.
  pose proof (timeline_of_groups_nonempty sourceClip (event :: groups') cs
                ltac:(discriminate) (eq_sym (Forall2_length _ _ _ Hcs))) as Hnonempty.
  destruct (timeline sourceClip 0 (event :: groups') cs) as [|c0 l]; [congruence|].
  cbn [concatenate_videoclips] in Hrun. inversion Hrun. split; reflexivity.
Qed.

Lemma gui_run_writes_the_timeline_witness :
  let sourceClip := mkSource 2 640 480 in
  let w := {| midi_files := {[ "in.mid" := overlapping_stream ]};
              video_files := {[ "clip.mp4" := sourceClip ]};
              stdout := []; written := [] |} in
  let run := Midisync.createVideo 3 "in.mid" "clip.mp4" "out.mp4" w in
  exists clips,
    Midisync.build_timeline 3 sourceClip (Midisync.extract overlapping_stream (1 # 10)) =
      Ok clips /\
    fst run = Ok tt /\
    written (snd run) = written w ++ [ ("out.mp4", Concatenate clips, 30%Z) ].
Proof.
  intros sourceClip w run.
  apply (gui_run_writes_the_timeline w 3%nat "in.mid" "clip.mp4" "out.mp4"
           overlapping_stream sourceClip).
  - reflexivity.
  - reflexivity.
  - decide_Q.
  - discriminate.
  - vm_compute. lia.
Defined.

(** X21.  Called with the three paths only, [midisync_nogui.py] ends as
    [midisync.py] does and writes the same video, whenever no extracted
    group lasts longer than the source clip (of duration not negative):
    its defaults are the threshold 0.1 and the 30 frames per second
    that [midisync.py] has built in. *)
Theorem defaults_make_programs_agree :
  forall w fuel midiPath videoClipPath outputPath,
    (forall mid sourceClip,
        midi_files w !! midiPath = Some mid ->
        video_files w !! videoClipPath = Some sourceClip ->
        0 <= src_duration sourceClip /\
        Forall (fun event => content_duration event <= src_duration sourceClip)
               (Midisync.extract mid (1 # 10))) ->
    let gui := Midisync.createVideo fuel midiPath videoClipPath outputPath w in
    let nogui := MidisyncNoGui.main midiPath videoClipPath outputPath NoExtra w in
    fst gui = fst nogui /\ written (snd gui) = written (snd nogui).
Proof.
  intros w fuel midiPath videoClipPath outputPath Hfit gui nogui.
  pose proof (gui_createVideo_outcome fuel midiPath videoClipPath outputPath w) as Hg.
  pose proof (nogui_createVideo_outcome midiPath videoClipPath outputPath (1 # 10) 30 w)
    as Hn.
  cbv zeta in Hg, Hn. fold gui in Hg.
  change (MidisyncNoGui.createVideo midiPath videoClipPath outputPath (1 # 10) 30 w)
    with nogui in Hn.
  assert (Heq : (fst gui, written (snd gui)) = (fst nogui, written (snd nogui))).
  { rewrite Hg, Hn. unfold run_outcome.
    destruct (midi_files w !! midiPath) as [mid|] eqn:Hmid; [|reflexivity].
    change (MidisyncNoGui.extract mid (1 # 10)) with (Midisync.extract mid (1 # 10)).
    destruct (Midisync.extract mid (1 # 10)) as [|event groups] eqn:Eg; [reflexivity|].
    destruct (video_files w !! videoClipPath) as [sourceClip|] eqn:Hvideo; [|reflexivity].
    destruct (Hfit mid sourceClip eq_refl eq_refl) as [Hs Hall]. rewrite Eg in Hall.
    destruct (builds_agree_when_notes_fit fuel sourceClip (event :: groups) Hs Hall)
      as [-> _].
    reflexivity. }
  inversion Heq. split; reflexivity.
Qed.

Lemma defaults_make_programs_agree_witness :
  let w := {| midi_files := {[ "in.mid" := overlapping_stream ]};
              video_files := {[ "clip.mp4" := mkSource 5 640 480 ]};
              stdout := []; written := [] |} in
  let gui := Midisync.createVideo 0 "in.mid" "clip.mp4" "out.mp4" w in
  let nogui := MidisyncNoGui.main "in.mid" "clip.mp4" "out.mp4" NoExtra w in
  fst gui = fst nogui /\ written (snd gui) = written (snd nogui).
Proof.
  intros w.
  apply (defaults_make_programs_agree w 0%nat "in.mid" "clip.mp4" "out.mp4").
  intros mid sourceClip Hmid Hvideo.
  vm_compute in Hmid. vm_compute in Hvideo.
  inversion Hmid; subst mid. inversion Hvideo; subst sourceClip.
  split; [decide_Q|]. repeat constructor; decide_Q.
Defined.

(** X22.  With a readable source clip of duration 0 and an extracted
    group of positive duration, a run of [midisync_nogui.py] ends with
    [ZeroDivisionError] after the extraction, and a run of [midisync.py]
    does not get past its [while] loop whatever the bound; neither
    writes a video. *)
Theorem empty_source_run_writes_nothing :
  forall w fuel midiPath videoClipPath outputPath chordThreshold fps mid sourceClip,
    midi_files w !! midiPath = Some mid ->
    video_files w !! videoClipPath = Some sourceClip ->
    src_duration sourceClip == 0 ->
    Exists (fun event => 0 < content_duration event)
           (MidisyncNoGui.extract mid chordThreshold) ->
    Exists (fun event => 0 < content_duration event) (Midisync.extract mid (1 # 10)) ->
    let nogui := MidisyncNoGui.createVideo midiPath videoClipPath outputPath
                   chordThreshold fps w in
    let gui := Midisync.createVideo fuel midiPath videoClipPath outputPath w in
    (fst nogui = Raise ZeroDivisionError /\ written (snd nogui) = written w) /\
    (fst gui = OutOfFuel /\ written (snd gui) = written w).
Proof.
  intros w fuel midiPath videoClipPath outputPath chordThreshold fps mid sourceClip
         Hmid Hvideo Hs Hex Hex' nogui gui.
  split.
  - pose proof (nogui_createVideo_outcome midiPath videoClipPath outputPath
                  chordThreshold fps w) as Hrun.
    cbv zeta in Hrun. fold nogui in Hrun. unfold run_outcome in Hrun.
    rewrite Hmid, Hvideo in Hrun.
    destruct (build_fails_on_empty_source sourceClip _ Hs Hex) as [Hbuild _].
    destruct (MidisyncNoGui.extract mid chordThreshold) as [|event groups];
      [inversion Hex|].
    rewrite Hbuild in Hrun. cbn [bind] in Hrun. inversion Hrun. split; reflexivity.
  - pose proof (gui_createVideo_outcome fuel midiPath videoClipPath outputPath w) as Hrun.
    cbv zeta in Hrun. fold gui in Hrun. unfold run_outcome in Hrun.
    rewrite Hmid, Hvideo in Hrun.
    destruct (build_fails_on_empty_source sourceClip _ Hs Hex') as [_ Hbuild].
    destruct (Midisync.extract mid (1 # 10)) as [|event groups]; [inversion Hex'|].
    rewrite (Hbuild fuel) in Hrun. cbn [bind] in Hrun. inversion Hrun. split; reflexivity.
Qed.

Lemma empty_source_run_writes_nothing_witness :
  let w := {| midi_files := {[ "in.mid" := overlapping_stream ]};
              video_files := {[ "clip.mp4" := mkSource 0 640 480 ]};
              stdout := []; written := [] |} in
  let nogui := MidisyncNoGui.createVideo "in.mid" "clip.mp4" "out.mp4" (1 # 10) 30 w in
  let gui := Midisync.createVideo 7 "in.mid" "clip.mp4" "out.mp4" w in
  (fst nogui = Raise ZeroDivisionError /\ written (snd nogui) = written w) /\
  (fst gui = OutOfFuel /\ written (snd gui) = written w).
Proof.
  intros w.
  apply (empty_source_run_writes_nothing w 7%nat "in.mid" "clip.mp4" "out.mp4"
           (1 # 10) 30%Z overlapping_stream (mkSource 0 640 480)).
  - reflexivity.
  - reflexivity.
  - reflexivity.
  - left. decide_Q.
  - left. decide_Q.
Defined.
